(** * Logging.js: a shallow embedding of the RPG Maker MV logging plugin

    The first part embeds the plugin: the JavaScript values it handles, the
    [LogLevel] table with [_levelToName], [_nameToLevel] and [_checkLevel],
    [util.format], the backtracking regular expression [resolveToLocalPath]
    is written with, the handlers ([LogHandler], [ConsoleHandler],
    [FileStreamHandler]) over an explicit world (object store, console,
    files, pending callbacks), the [Logger], and the plugin parameters with
    [createLogger].  The second part states and proves what the plugin
    does. *)

From Stdlib Require Import ZArith String Ascii List Lia DecimalString.
From stdpp Require Import gmap strings list fin_maps.

Local Open Scope Z_scope.
Local Open Scope string_scope.
Local Open Scope list_scope.

(** ** JavaScript values *)

(** Numbers.  The levels of the plugin are integers, so the finite doubles
    are modelled by the integers; the two infinities and NaN are kept since
    [typeof] calls them numbers as well and comparison treats them apart. *)
Inductive number : Type :=
| Finite (z : Z)
| PosInfinity
| NegInfinity
| NaN.

(** The objects a property lookup on an object literal can reach besides the
    literal's own members: [Object.prototype] itself (through [__proto__])
    and the built-in functions it holds. *)
Inductive object : Type :=
| ObjectPrototype
| BuiltinFunction (name : string).

Inductive value : Type :=
| VUndefined
| VNull
| VBoolean (b : bool)
| VNumber (n : number)
| VString (s : string)
| VObject (o : object).

#[global] Instance number_eq_dec : EqDecision number.
Proof. solve_decision. Defined.
#[global] Instance object_eq_dec : EqDecision object.
Proof. solve_decision. Defined.
#[global] Instance value_eq_dec : EqDecision value.
Proof. solve_decision. Defined.

(** What a [throw] carries.  Messages built with [+] keep their operands
    apart instead of going through [ToString]. *)
Inductive thrown : Type :=
| Error (prefix : string) (operand : value) (suffix : string)
| TypeError (message : string)
| ErrnoException (code : string)
| Message (prefix : string) (err : string).

(** The outcome of a call: it returns, or it throws. *)
Inductive completion (A : Type) : Type :=
| Normal (a : A)
| Throw (e : thrown).
Arguments Normal {A} a.
Arguments Throw {A} e.

Definition typeof (v : value) : string :=
  match v with
  | VUndefined => "undefined"
  | VNull => "object"
  | VBoolean _ => "boolean"
  | VNumber _ => "number"
  | VString _ => "string"
  | VObject ObjectPrototype => "object"
  | VObject (BuiltinFunction _) => "function"
  end.

(** [x === y] on numbers: NaN equals nothing, itself included. *)
Definition number_strict_equal (x y : number) : bool :=
  match x, y with
  | Finite a, Finite b => (a =? b)%Z
  | PosInfinity, PosInfinity => true
  | NegInfinity, NegInfinity => true
  | _, _ => false
  end.

(** [x === y]: same type and same value, objects by identity. *)
Definition strict_equal (x y : value) : bool :=
  match x, y with
  | VUndefined, VUndefined => true
  | VNull, VNull => true
  | VBoolean a, VBoolean b => Bool.eqb a b
  | VNumber a, VNumber b => number_strict_equal a b
  | VString a, VString b => String.eqb a b
  | VObject a, VObject b => bool_decide (a = b)
  | _, _ => false
  end.

(** [x < y] and [x <= y] on numbers: false as soon as NaN is involved. *)
Definition number_lt (x y : number) : bool :=
  match x, y with
  | NaN, _ | _, NaN => false
  | Finite a, Finite b => (a <? b)%Z
  | NegInfinity, NegInfinity => false
  | NegInfinity, _ => true
  | _, NegInfinity => false
  | PosInfinity, _ => false
  | _, PosInfinity => true
  end.

Definition number_le (x y : number) : bool :=
  match x, y with
  | NaN, _ | _, NaN => false
  | Finite a, Finite b => (a <=? b)%Z
  | NegInfinity, _ => true
  | _, NegInfinity => false
  | _, PosInfinity => true
  | PosInfinity, _ => false
  end.

Definition ToBoolean (v : value) : bool :=
  match v with
  | VUndefined | VNull => false
  | VBoolean b => b
  | VNumber (Finite z) => negb (z =? 0)%Z
  | VNumber NaN => false
  | VNumber _ => true
  | VString s => negb (String.eqb s "")
  | VObject _ => true
  end.

(** [a || b] *)
Definition or_else (a b : value) : value :=
  if ToBoolean a then a else b.

(** [String(v)], the conversion a property key goes through as well.  A
    built-in function converts to its source text. *)
Definition ToString (v : value) : string :=
  match v with
  | VUndefined => "undefined"
  | VNull => "null"
  | VBoolean b => if b then "true" else "false"
  | VNumber (Finite z) => NilZero.string_of_int (Z.to_int z)
  | VNumber PosInfinity => "Infinity"
  | VNumber NegInfinity => "-Infinity"
  | VNumber NaN => "NaN"
  | VString s => s
  | VObject ObjectPrototype => "[object Object]"
  | VObject (BuiltinFunction name) => "function " +:+ name +:+ "() { [native code] }"
  end.

(** The members every object literal inherits from [Object.prototype]. *)
Definition Object_prototype : gmap string value :=
  list_to_map
    [ ("constructor", VObject (BuiltinFunction "Object"));
      ("hasOwnProperty", VObject (BuiltinFunction "hasOwnProperty"));
      ("isPrototypeOf", VObject (BuiltinFunction "isPrototypeOf"));
      ("propertyIsEnumerable", VObject (BuiltinFunction "propertyIsEnumerable"));
      ("toLocaleString", VObject (BuiltinFunction "toLocaleString"));
      ("toString", VObject (BuiltinFunction "toString"));
      ("valueOf", VObject (BuiltinFunction "valueOf"));
      ("__defineGetter__", VObject (BuiltinFunction "__defineGetter__"));
      ("__defineSetter__", VObject (BuiltinFunction "__defineSetter__"));
      ("__lookupGetter__", VObject (BuiltinFunction "__lookupGetter__"));
      ("__lookupSetter__", VObject (BuiltinFunction "__lookupSetter__"));
      ("__proto__", VObject ObjectPrototype) ].

(** [o[key]] for an object literal [o] with the own members [own] and a key
    already converted to a string: the own member, else the inherited one,
    else [undefined]. *)
Definition get (own : gmap string value) (key : string) : value :=
  match own !! key with
  | Some v => v
  | None => default VUndefined (Object_prototype !! key)
  end.

(** ** LogLevel *)

Module LogLevel.
Definition DEBUG : number := Finite 10.
Definition INFO : number := Finite 20.
Definition WARN : number := Finite 30.
Definition WARNING : number := WARN.
Definition ERROR : number := Finite 40.
Definition ALL : number := Finite 0.
End LogLevel.

Definition _levelToName (level : value) : completion string :=
  if strict_equal level (VNumber LogLevel.ALL) then Normal "ALL"
  else if strict_equal level (VNumber LogLevel.DEBUG) then Normal "DEBUG"
  else if strict_equal level (VNumber LogLevel.ERROR) then Normal "ERROR"
  else if strict_equal level (VNumber LogLevel.INFO) then Normal "INFO"
  else if strict_equal level (VNumber LogLevel.WARN) then Normal "WARN"
  else Throw (Error "Unknown level: " level "").

Definition _nameToLevel (level : value) : value :=
  let map : gmap string value :=
    <["ALL" := VNumber LogLevel.ALL]>
    (<["DEBUG" := VNumber LogLevel.DEBUG]>
    (<["ERROR" := VNumber LogLevel.ERROR]>
    (<["INFO" := VNumber LogLevel.INFO]>
    (<["WARN" := VNumber LogLevel.WARN]>
    (<["WARNING" := VNumber LogLevel.WARNING]> ∅))))) in
  get map (ToString level).

Definition _checkLevel (level : value) : completion value :=
  let rv := VNull in
  if String.eqb (typeof level) "number" then
    let rv := level in Normal rv
  else if String.eqb (typeof level) "string" then
    let rv := _nameToLevel level in Normal rv
  else Throw (Error "Level " level " unrecognized.").

(** [_levelToName] returns a name or throws, so the second lookup is never
    reached. *)
Definition _getLevelName (level : value) : completion value :=
  match _levelToName level with
  | Throw e => Throw e
  | Normal lvl =>
      if negb (ToBoolean (VString lvl)) then Normal (_nameToLevel level)
      else Normal (VString lvl)
  end.

(** ** Comparison with a number

    [x <= y] where [y] is a number goes through [ToNumber x].  For an
    object the conversion first asks [valueOf], which hands the object
    back, then [toString], whose text ("[object Object]", or the source
    text of a built-in function) is no numeric literal: NaN.  For a string
    it is the runtime's [StringToNumber], which the development takes as
    it comes. *)
Section Relational.
Variable StringToNumber : string -> number.

Definition ToNumber (v : value) : number :=
    match v with
    | VUndefined => NaN
    | VNull => Finite 0
    | VBoolean b => if b then Finite 1 else Finite 0
    | VNumber n => n
    | VString s => StringToNumber s
    | VObject _ => NaN
    end.

Definition less_equal (x : value) (y : number) : bool :=
    number_le (ToNumber x) y.
End Relational.

(** ** util.format

    [util.format(f, args...)] for string arguments: each [%s] takes the
    next argument, [%%] is a percent sign, a [%s] with no argument left
    stays, and arguments left over are appended after a space each.  The
    other directives do not occur in the template of the plugin and are
    copied like any other text here. *)
Fixpoint util_format (f : string) (args : list string) : string :=
  match f with
  | EmptyString => fold_right (fun a rest => " " +:+ a +:+ rest) EmptyString args
  | String c f1 =>
      if Ascii.eqb c "%" then
        match f1 with
        | EmptyString => String c EmptyString +:+ util_format f1 args
        | String d f2 =>
            if Ascii.eqb d "s" then
              match args with
              | a :: args1 => a +:+ util_format f2 args1
              | [] => "%s" +:+ util_format f2 []
              end
            else if Ascii.eqb d "%" then "%" +:+ util_format f2 args
            else String c (util_format f1 args)
        end
      else String c (util_format f1 args)
  end.

Definition logging_log_format : string := "%s [%s] - %s".

(** ** Regular expressions

    The pattern of [resolveToLocalPath] is matched the way the language
    defines it: a backtracking matcher in continuation-passing style,
    where each construct tries its alternatives in priority order and the
    first one whose continuation succeeds wins.  Strings are sequences of
    one-byte characters. *)
Module RegExp.

Inductive regex : Type :=
  | Class (member : ascii -> bool)      (* a character class, or [.] *)
  | Seq (r1 r2 : regex)                 (* r1 r2 *)
  | Optional (r : regex)                (* r?   greedy *)
  | Plus (member : ascii -> bool)       (* c+   greedy *)
  | PlusLazy (member : ascii -> bool)   (* c+?  lazy *)
  | Capture (r : regex).                (* ( r ), the group $1 *)

  (** A match state: the input still to read and what group 1 holds. *)
Definition state : Type := string * option string.
Definition continuation : Type := string -> option string -> option state.

  (** The text read between the input [s] and its suffix [s1]. *)
Definition consumed (s s1 : string) : string :=
    substring 0 (String.length s - String.length s1) s.

  (** [c+]: one character of the class, then as many more as possible. *)
Fixpoint plus_greedy (member : ascii -> bool) (s : string)
           (k : string -> option state) : option state :=
    match s with
    | EmptyString => None
    | String c s1 =>
        if member c then
          match plus_greedy member s1 k with
          | Some r => Some r
          | None => k s1
          end
        else None
    end.

  (** [c+?]: one character of the class, then as few more as possible. *)
Fixpoint plus_lazy (member : ascii -> bool) (s : string)
           (k : string -> option state) : option state :=
    match s with
    | EmptyString => None
    | String c s1 =>
        if member c then
          match k s1 with
          | Some r => Some r
          | None => plus_lazy member s1 k
          end
        else None
    end.

  (** The quantified groups of the pattern hold no capturing group, so an
      iteration has no capture to reset.  An optional part that matched
      the empty string is refused, as the language says. *)
Fixpoint matcher (r : regex) (s : string) (cap : option string)
           (k : continuation) : option state :=
    match r with
    | Class member =>
        match s with
        | EmptyString => None
        | String c s1 => if member c then k s1 cap else None
        end
    | Seq r1 r2 => matcher r1 s cap (fun s1 cap1 => matcher r2 s1 cap1 k)
    | Optional r1 =>
        match matcher r1 s cap
                (fun s1 cap1 =>
                   if (String.length s1 =? String.length s)%nat then None
                   else k s1 cap1) with
        | Some x => Some x
        | None => k s cap
        end
    | Plus member => plus_greedy member s (fun s1 => k s1 cap)
    | PlusLazy member => plus_lazy member s (fun s1 => k s1 cap)
    | Capture r1 => matcher r1 s cap (fun s1 _ => k s1 (Some (consumed s s1)))
    end.

  (** One attempt at the current position: the rest of the input after the
      match and the captured group. *)
Definition match_here (r : regex) (s : string) : option state :=
    matcher r s None (fun s1 cap => Some (s1, cap)).

  (** [s.replace(r, "$1")] for a global [r]: every match, found from left
      to right, is replaced by its group 1 (the empty string when the group
      took no part); a character at which no match starts is kept; after an
      empty match the search moves on by one character.  [fuel] bounds the
      number of positions visited. *)
Fixpoint replace_group1 (fuel : nat) (r : regex) (s : string) : option string :=
    match fuel with
    | O => None
    | S fuel1 =>
        match match_here r s with
        | Some (rest, cap) =>
            let sub := default EmptyString cap in
            if (String.length rest =? String.length s)%nat then
              match s with
              | EmptyString => Some sub
              | String c s1 =>
                  (fun t => sub +:+ String c t) <$> replace_group1 fuel1 r s1
              end
            else (fun t => sub +:+ t) <$> replace_group1 fuel1 r rest
        | None =>
            match s with
            | EmptyString => Some EmptyString
            | String c s1 => String c <$> replace_group1 fuel1 r s1
            end
        end
    end.

Definition replace (r : regex) (s : string) : option string :=
    replace_group1 (S (String.length s)) r s.

End RegExp.

(** A slash or a backslash: the class written between brackets. *)
Definition separator (c : ascii) : bool :=
  Ascii.eqb c "/" || Ascii.eqb c "\".

(** The dot: any character but a line terminator. *)
Definition dot (c : ascii) : bool :=
  negb (Ascii.eqb c "010" || Ascii.eqb c "013").

(** The pattern of [resolveToLocalPath]: an optional separator; an optional
    group made of a greedy run of any characters and a lazy run of
    separators; the captured lazy run of any characters; an optional
    separator. *)
Definition pattern : RegExp.regex :=
  RegExp.Seq (RegExp.Optional (RegExp.Class separator))
    (RegExp.Seq
       (RegExp.Optional (RegExp.Seq (RegExp.Plus dot) (RegExp.PlusLazy separator)))
       (RegExp.Seq (RegExp.Capture (RegExp.PlusLazy dot))
          (RegExp.Optional (RegExp.Class separator)))).

Definition resolveToLocalPath (filePath : string) : option string :=
  RegExp.replace pattern filePath.

(** ** The world

    The handlers are objects: the logger holds references to them, and the
    callback of [FileStreamHandler.initialize] sets [_ready] of its handler
    long after the handler was attached.  The world therefore keeps an
    object store, next to what the plugin acts on: the console, the files,
    and the asynchronous file operations whose callbacks are still to run. *)

Definition ref : Type := nat.

Inductive stream : Type :=
| console_debug
| console_info
| console_warn
| console_error
| console_log.

(** An object made by one of the three constructors, with its fields. *)
Inductive handler : Type :=
| LogHandler_object
| ConsoleHandler_object (_ready : bool)
| FileStreamHandler_object (_ready : bool) (_logfile : string).

(** The closures handed to [fs.open] and [fs.write], each with the
    variables it captures.  A file descriptor is represented by the path it
    was opened on. *)
Inductive open_callback : Type :=
| initialize_opened (self : ref)
| write_opened (buffer : string).

Inductive write_callback : Type :=
| write_written.

Inductive task : Type :=
| fs_open (path : string) (callback : open_callback)
| fs_write (fd : string) (buffer : string) (callback : write_callback).

(** What a spy sees of a logger at work: each string [util.format] made and
    each call of a handler's [write] with its arguments. *)
Inductive event : Type :=
| format_returned (text : string)
| write_called (target : ref) (message : string) (level : value).

Record world : Type := World {
  heap : list handler;
  console : bool;
  console_out : list (stream * string);
  logs_path : string;
  files : gmap string string;
  pending : list task;
  uncaught : list thrown;
  observed : list event
}.

Definition with_heap (h : list handler) (w : world) : world :=
  World h (console w) (console_out w) (logs_path w) (files w) (pending w)
    (uncaught w) (observed w).
Definition with_console_out (o : list (stream * string)) (w : world) : world :=
  World (heap w) (console w) o (logs_path w) (files w) (pending w)
    (uncaught w) (observed w).
Definition with_files (f : gmap string string) (w : world) : world :=
  World (heap w) (console w) (console_out w) (logs_path w) f (pending w)
    (uncaught w) (observed w).
Definition with_pending (p : list task) (w : world) : world :=
  World (heap w) (console w) (console_out w) (logs_path w) (files w) p
    (uncaught w) (observed w).
Definition with_uncaught (u : list thrown) (w : world) : world :=
  World (heap w) (console w) (console_out w) (logs_path w) (files w) (pending w)
    u (observed w).
Definition with_observed (o : list event) (w : world) : world :=
  World (heap w) (console w) (console_out w) (logs_path w) (files w) (pending w)
    (uncaught w) o.

(** Code that acts on the world and returns or throws. *)
Definition M (A : Type) : Type := world -> completion A * world.

#[global] Instance M_ret : MRet M := fun A a w => (Normal a, w).
#[global] Instance M_bind : MBind M := fun A B f m w =>
  match m w with
  | (Normal a, w1) => f a w1
  | (Throw e, w1) => (Throw e, w1)
  end.

Definition throw {A : Type} (e : thrown) : M A := fun w => (Throw e, w).

Definition observe (e : event) : M unit := fun w =>
  (Normal tt, with_observed (observed w ++ [e]) w).

Definition emit (s : stream) (message : string) : M unit := fun w =>
  (Normal tt, with_console_out (console_out w ++ [(s, message)]) w).

Definition enqueue (t : task) : M unit := fun w =>
  (Normal tt, with_pending (pending w ++ [t]) w).

(** [new]: the fresh object gets the next reference. *)
Definition allocate (obj : handler) : M ref := fun w =>
  (Normal (length (heap w)), with_heap (heap w ++ [obj]) w).

(** [l.forEach(f)] *)
Fixpoint forEach {A : Type} (l : list A) (f : A -> M unit) : M unit :=
  match l with
  | [] => mret tt
  | x :: l1 => f x ;; forEach l1 f
  end.

Definition LF : string := String "010" EmptyString.

(** ** The handlers *)

Module LogHandler.
Definition initialize : M handler := mret LogHandler_object.

Definition new : M ref := this ← initialize; allocate this.

Definition write (message : string) : M unit := mret tt.
End LogHandler.

Module ConsoleHandler.
Definition initialize : M handler := fun w =>
    let _ready := false in
    let _ready := if console w then true else _ready in
    (Normal (ConsoleHandler_object _ready), w).

Definition new : M ref := this ← initialize; allocate this.

Definition write (_ready : bool) (message : string) (level : value) : M unit :=
    if _ready then
      (if strict_equal level (VNumber LogLevel.DEBUG) then emit console_debug message
       else if strict_equal level (VNumber LogLevel.INFO) then emit console_info message
       else if strict_equal level (VNumber LogLevel.WARN) then emit console_warn message
       else if strict_equal level (VNumber LogLevel.ERROR) then emit console_error message
       else mret tt) ;;
      emit console_log message
    else mret tt.
End ConsoleHandler.

Module FileStreamHandler.
Section Path.
    (** [path.resolve] of the runtime. *)
Variable path_resolve : list string -> string.

    (** The object is allocated first so that the callback can capture it
        as [self]. *)
Definition new (fileName : string) : M ref := fun w =>
      let _ready := false in
      let _logfile := path_resolve [logs_path w; "./"; fileName] in
      (self ← allocate (FileStreamHandler_object _ready _logfile);
       enqueue (fs_open _logfile (initialize_opened self)) ;;
       mret self) w.
End Path.

Definition write (_ready : bool) (_logfile : string)
             (message : string) (level : value) : M unit :=
    if _ready then
      let buffer := message +:+ LF in
      enqueue (fs_open _logfile (write_opened buffer))
    else mret tt.
End FileStreamHandler.

(** [handler.write(message, level)]: the method of the object the reference
    points to; a reference to nothing has no method to call. *)
Definition handler_write (target : ref) (message : string) (level : value) : M unit :=
  fun w =>
    match heap w !! target with
    | None => (Throw (TypeError "handler.write is not a function"), w)
    | Some obj =>
        (observe (write_called target message level) ;;
         match obj with
         | LogHandler_object => LogHandler.write message
         | ConsoleHandler_object _ready => ConsoleHandler.write _ready message level
         | FileStreamHandler_object _ready _logfile =>
             FileStreamHandler.write _ready _logfile message level
         end) w
    end.

(** ** The file system at work

    An operation in [pending] completes when the environment says so and
    with the outcome the environment gives it; its callback runs then.  An
    exception thrown by a callback has no caller to catch it. *)
Inductive io_result : Type :=
| io_ok
| io_error (code : string).

Definition set_ready (obj : handler) : handler :=
  match obj with
  | FileStreamHandler_object _ _logfile => FileStreamHandler_object true _logfile
  | other => other
  end.

(** Opening with "a+" creates the file when it is not there. *)
Definition create (path : string) (f : gmap string string) : gmap string string :=
  match f !! path with
  | Some _ => f
  | None => <[path := EmptyString]> f
  end.

(** Writing through a descriptor opened for appending adds to the end. *)
Definition append (path buffer : string) (f : gmap string string) : gmap string string :=
  <[path := default EmptyString (f !! path) +:+ buffer]> f.

Definition run_open_callback (callback : open_callback) (fd : string)
           (r : io_result) (w : world) : world :=
  match callback, r with
  | initialize_opened self, io_error code =>
      with_uncaught (uncaught w ++ [ErrnoException code]) w
  | initialize_opened self, io_ok =>
      with_heap (alter set_ready self (heap w)) w
  | write_opened buffer, io_error code =>
      with_uncaught
        (uncaught w ++
           [Message "An error was encountered when attemping to open the log file: " code]) w
  | write_opened buffer, io_ok =>
      with_pending (pending w ++ [fs_write fd buffer write_written]) w
  end.

Definition run_write_callback (callback : write_callback) (fd : string)
           (r : io_result) (w : world) : world :=
  match callback, r with
  | write_written, io_error code =>
      with_uncaught (uncaught w ++ [Message "Error writing file: " code]) w
  | write_written, io_ok => w
  end.

(** The [i]-th pending operation completes with the outcome [r]. *)
Definition complete (i : nat) (r : io_result) (w : world) : option world :=
  match pending w !! i with
  | None => None
  | Some t =>
      let w := with_pending (delete i (pending w)) w in
      Some
        match t, r with
        | fs_open path callback, io_ok =>
            run_open_callback callback path r (with_files (create path (files w)) w)
        | fs_open path callback, io_error _ =>
            run_open_callback callback path r w
        | fs_write fd buffer callback, io_ok =>
            run_write_callback callback fd r (with_files (append fd buffer (files w)) w)
        | fs_write fd buffer callback, io_error _ =>
            run_write_callback callback fd r w
        end
  end.

(** A schedule: which pending operation completes next, and how. *)
Fixpoint run (schedule : list (nat * io_result)) (w : world) : option world :=
  match schedule with
  | [] => Some w
  | (i, r) :: rest =>
      match complete i r w with
      | Some w1 => run rest w1
      | None => None
      end
  end.

(** ** Logger

    A logger is a value passed along: [addHandler] and [setLevel] give the
    logger back with the field they assign.  [Logging.Format] is assigned
    [logging_log_format] by the plugin's start-up code before the one place
    that constructs a logger, so [log] reads the template itself.  The text
    of [date.toISOString()] is what the call is given as [date]. *)
Module Logger.

Record t : Type := Build {
  _handlers : list ref;
  format : string;
  level : value
}.

Definition initialize : t :=
  Build [] EmptyString (VNumber LogLevel.INFO).

Definition addHandler (this : t) (handler : ref) : t :=
  Build (_handlers this ++ [handler]) (format this) (level this).

Definition setLevel (this : t) (level : value) : completion t :=
  match _checkLevel level with
  | Normal rv => Normal (Build (_handlers this) (format this) rv)
  | Throw e => Throw e
  end.

Section Log.
Variable StringToNumber : string -> number.

Definition log (this : t) (level : number) (message : string)
           (date : string) : M unit :=
  if less_equal StringToNumber (Logger.level this) level then
    match _levelToName (VNumber level) with
    | Throw e => throw e
    | Normal name =>
        let formatted := util_format logging_log_format [date; name; message] in
        observe (format_returned formatted) ;;
        forEach (_handlers this)
          (fun handler => handler_write handler formatted VUndefined)
    end
  else mret tt.

Definition error (this : t) (message : string) : string -> M unit :=
  log this LogLevel.ERROR message.

Definition debug (this : t) (message : string) : string -> M unit :=
  log this LogLevel.DEBUG message.

Definition info (this : t) (message : string) : string -> M unit :=
  log this LogLevel.INFO message.

Definition warn (this : t) (message : string) : string -> M unit :=
  log this LogLevel.WARN message.
End Log.

End Logger.

(** ** Plugin parameters and createLogger *)

Section Bootstrap.
(** [PluginManager.parameters("Logging")]: an object whose members are the
    strings typed into the plugin manager. *)
Variable parameters : gmap string string.
(** [path.resolve] and [path.basename] of the runtime. *)
Variable path_resolve : list string -> string.
Variable path_basename : string -> string.

Definition parameter (key : string) : value :=
  get (VString <$> parameters) key.

Definition logging_enable_console_logger : bool :=
  ToBoolean (or_else (parameter "Enable Console Logger") (VString "true")).
Definition logging_enable_file_logger : bool :=
  ToBoolean (or_else (parameter "Enable File Logger") (VString "true")).
Definition logging_directory : string :=
  ToString (or_else (parameter "Log Directory") (VString EmptyString)).
Definition logging_filename : string :=
  ToString (or_else (parameter "Log Filename") (VString "game.log")).
Definition logging_log_level : string :=
  ToString (or_else (parameter "Log Level") (VString "INFO")).

Definition createLogger (name : string) (level : value) : M Logger.t :=
  let logger := Logger.initialize in
  match Logger.setLevel logger level with
  | Throw e => throw e
  | Normal logger =>
      logger ←
        (if logging_enable_console_logger then
           consoleHandler ← ConsoleHandler.new;
           mret (Logger.addHandler logger consoleHandler)
         else mret logger);
      logger ←
        (if logging_enable_file_logger then
           fileStreamHandler ←
             FileStreamHandler.new path_resolve (path_basename logging_filename);
           mret (Logger.addHandler logger fileStreamHandler)
         else mret logger);
      mret logger
  end.
End Bootstrap.


(** ** Start-up

    [initialize] runs once when the plugin is loaded.  It assigns the
    members of the global [Logging], resolves the directory of the logs and
    asks the file system whether that directory is there; the logger is
    made in the callback of that question.  The state of the plugin is the
    global object, the question in flight if any, the directories
    [fs.mkdir] was asked to make, and the world. *)

Module Logging.
Definition STATE_DONE : string := "done".
Definition STATE_ERR : string := "err".
Definition STATE_INITIALIZING : string := "initializing".
Definition STATE_RESOLVING_LOGS_PATH : string := "resolving_logs_path".

(** [PluginState] starts as [null], the other members as [undefined];
    [Logging.Paths.logs_path] is [logs_path] of the world. *)
Record t : Type := Build {
  PluginState : option string;
  root_path : option string;
  Level : value;
  Format : option string;
  logger : option Logger.t
}.

Definition initial : t := Build None None VUndefined None None.

Definition with_PluginState (s : string) (g : t) : t :=
  Build (Some s) (root_path g) (Level g) (Format g) (logger g).
Definition with_root_path (p : string) (g : t) : t :=
  Build (PluginState g) (Some p) (Level g) (Format g) (logger g).
Definition with_Level (v : value) (g : t) : t :=
  Build (PluginState g) (root_path g) v (Format g) (logger g).
Definition with_Format (f : string) (g : t) : t :=
  Build (PluginState g) (root_path g) (Level g) (Some f) (logger g).
Definition with_logger (l : Logger.t) (g : t) : t :=
  Build (PluginState g) (root_path g) (Level g) (Format g) (Some l).
End Logging.

Record plugin : Type := Plugin {
  globals : Logging.t;
  access_pending : option string;
  mkdir_requested : list string;
  the_world : world
}.

Definition with_logs_path (p : string) (w : world) : world :=
  World (heap w) (console w) (console_out w) p (files w) (pending w)
    (uncaught w) (observed w).

Definition slash (c : ascii) : bool := Ascii.eqb c "/".
Definition colon (c : ascii) : bool := Ascii.eqb c ":".
(** The class of the capital letters A to Z. *)
Definition capital (c : ascii) : bool :=
  (65 <=? nat_of_ascii c)%nat && (nat_of_ascii c <=? 90)%nat.

(** The pattern of [getGameDirectory]: at the start of the string, a slash,
    then the group of a capital letter and a colon.  Anchored as it is, it
    can match at the first position only. *)
Definition drive_pattern : RegExp.regex :=
  RegExp.Seq (RegExp.Class slash)
    (RegExp.Capture (RegExp.Seq (RegExp.Class capital) (RegExp.Class colon))).

(** [s.slice(1)] *)
Definition slice1 (s : string) : string :=
  match s with
  | EmptyString => EmptyString
  | String _ s1 => s1
  end.

Section Startup.
Variable parameters : gmap string string.
(** [path.resolve], [path.basename], [path.dirname] and [fs.realpathSync] of
    the runtime, and the text of [window.location.pathname]. *)
Variable path_resolve : list string -> string.
Variable path_basename : string -> string.
Variable path_dirname : string -> string.
Variable realpathSync : string -> completion string.
Variable window_location_pathname : string.

Definition getGameDirectory : string :=
  let dir := path_dirname window_location_pathname in
  match RegExp.match_here drive_pattern dir with
  | Some _ => slice1 dir
  | None => dir
  end.

(** The body of [initialize] up to the call of [fs.access].  The fuel of
    [resolveToLocalPath] never runs out, so the default is never taken. *)
Definition initialize (p : plugin) : completion unit * plugin :=
  let g := Logging.with_PluginState Logging.STATE_INITIALIZING (globals p) in
  let g := Logging.with_Level (_nameToLevel (VString (logging_log_level parameters))) g in
  let g := Logging.with_Format logging_log_format g in
  match realpathSync getGameDirectory with
  | Throw e => (Throw e, Plugin g (access_pending p) (mkdir_requested p) (the_world p))
  | Normal pathname =>
      let g := Logging.with_root_path pathname g in
      let w := with_logs_path pathname (the_world p) in
      let g := Logging.with_PluginState Logging.STATE_RESOLVING_LOGS_PATH g in
      let w :=
        if ToBoolean (VString (logging_directory parameters)) then
          let logging_directory :=
            default EmptyString (resolveToLocalPath (logging_directory parameters)) in
          let logging_directory :=
            path_resolve [pathname; "./"; logging_directory] in
          with_logs_path logging_directory w
        else w in
      (Normal tt, Plugin g (Some (logs_path w)) (mkdir_requested p) w)
  end.

(** The callback of [fs.access]: on an error the directory is asked for;
    then the logger is made.  What [createLogger] throws leaves the callback
    uncaught, before the two assignments that follow it. *)
Definition access_completed (err : io_result) (p : plugin) : plugin :=
  match access_pending p with
  | None => p
  | Some _ =>
      let made :=
        match err with
        | io_error _ => mkdir_requested p ++ [logs_path (the_world p)]
        | io_ok => mkdir_requested p
        end in
      match createLogger parameters path_resolve path_basename "Game"
              (Logging.Level (globals p)) (the_world p) with
      | (Throw e, w) =>
          Plugin (globals p) None made (with_uncaught (uncaught w ++ [e]) w)
      | (Normal l, w) =>
          Plugin (Logging.with_PluginState Logging.STATE_DONE
                    (Logging.with_logger l (globals p)))
            None made w
      end
  end.
End Startup.

(** A logger as the plugin can build one: made by [new Logger()], then
    changed by [addHandler] and by calls of [setLevel] that returned. *)
Inductive built : Logger.t -> Prop :=
| built_new : built Logger.initialize
| built_addHandler (this : Logger.t) (handler : ref) :
    built this -> built (Logger.addHandler this handler)
| built_setLevel (this this1 : Logger.t) (level : value) :
    built this -> Logger.setLevel this level = Normal this1 -> built this1.

(** ** Vocabulary of the statements *)

(** The names the table of [_nameToLevel] holds. *)
Definition level_names : list string :=
  ["ALL"; "DEBUG"; "INFO"; "WARN"; "WARNING"; "ERROR"].

(** The ranks [_levelToName] knows. *)
Definition level_ranks : list Z := [0; 10; 20; 30; 40].

(** The strings of a list one after the other. *)
Definition join (l : list string) : string :=
  fold_right String.append EmptyString l.

(** An operation that a write of the buffer [b] to [logfile] has pending:
    the open started by [write], or the write started by its callback. *)
Definition carries (logfile : string) (t : task) (b : string) : Prop :=
  t = fs_open logfile (write_opened b) \/ t = fs_write logfile b write_written.

(** What one completion adds to a file: the buffer of a write that
    succeeds. *)
Definition step_written (i : nat) (r : io_result) (w : world) : list string :=
  match pending w !! i, r with
  | Some (fs_write _ buffer _), io_ok => [buffer]
  | _, _ => []
  end.

(** The buffers of the writes a schedule completes with success, in the
    order in which it completes them. *)
Fixpoint completed_writes (schedule : list (nat * io_result)) (w : world)
  : list string :=
  match schedule with
  | [] => []
  | (i, r) :: rest =>
      match complete i r w with
      | Some w1 => step_written i r w ++ completed_writes rest w1
      | None => []
      end
  end.

(** Every character of the string is in the class. *)
Fixpoint all_chars (member : ascii -> bool) (s : string) : bool :=
  match s with
  | EmptyString => true
  | String c s1 => member c && all_chars member s1
  end.

(** A character of a path segment: neither a separator nor a line
    terminator. *)
Definition plain (c : ascii) : bool := dot c && negb (separator c).

(** The characters of a string, in order. *)
Definition chars (s : string) : list ascii := list_ascii_of_string s.

(** The plugin at the moment its file is loaded, before [initialize] runs. *)
Definition loaded (w : world) : plugin := Plugin Logging.initial None [] w.

(** * Properties *)

(** ** Types and numbers *)

Lemma typeof_number (v : value) :
  typeof v = "number" <-> exists n, v = VNumber n.
Proof.
  split.
  - destruct v as [| | b | n | s | [|f]]; simpl; try discriminate; eauto.
  - intros [n ->]. reflexivity.
Qed.

Lemma typeof_string (v : value) :
  typeof v = "string" <-> exists s, v = VString s.
Proof.
  split.
  - destruct v as [| | b | n | s | [|f]]; simpl; try discriminate; eauto.
  - intros [s ->]. reflexivity.
Qed.

Lemma number_lt_not_le (x y : number) :
  number_lt x y = true -> number_le y x = false.
Proof.
  destruct x, y; simpl; try congruence; lia.
Qed.

(** On numbers with no NaN among them [<=] is the negation of [>]. *)
Lemma number_le_lt (x y : number) :
  x <> NaN -> y <> NaN -> number_le x y = negb (number_lt y x).
Proof.
  destruct x, y; simpl; try congruence; lia.
Qed.

(** ** LogLevel *)

Lemma Object_prototype_objects (key : string) (v : value) :
  Object_prototype !! key = Some v -> exists o, v = VObject o.
Proof.
  intros H. apply elem_of_list_to_map_2 in H.
  repeat (apply elem_of_cons in H as [H | H]; [injection H as _ ->; eauto |]).
  by apply elem_of_nil in H.
Qed.

(** A name outside the table is looked up in [Object.prototype]. *)
Lemma nameToLevel_outside_table (name : string) :
  name ∉ level_names ->
  _nameToLevel (VString name) = default VUndefined (Object_prototype !! name).
Proof.
  unfold level_names. rewrite !not_elem_of_cons.
  intros (? & ? & ? & ? & ? & ? & _).
  unfold _nameToLevel, get. simpl ToString.
  rewrite !lookup_insert_ne by done.
  by rewrite lookup_empty.
Qed.

Lemma nameToLevel_not_a_number (name : string) :
  name ∉ level_names -> forall n, _nameToLevel (VString name) <> VNumber n.
Proof.
  intros H n. rewrite (nameToLevel_outside_table _ H).
  destruct (Object_prototype !! name) as [v|] eqn:E; simpl; [|discriminate].
  apply Object_prototype_objects in E as [o ->]. discriminate.
Qed.

Lemma nameToLevel_table :
  Forall (fun '(name, rank) => _nameToLevel (VString name) = VNumber (Finite rank))
    [("ALL", 0); ("DEBUG", 10); ("INFO", 20); ("WARN", 30); ("WARNING", 30);
     ("ERROR", 40)].
Proof. repeat constructor. Qed.

Lemma levelToName_unknown (n : number) :
  (forall z, z ∈ level_ranks -> n <> Finite z) ->
  _levelToName (VNumber n) = Throw (Error "Unknown level: " (VNumber n) "").
Proof.
  intros H. unfold _levelToName.
  destruct n as [z| | |]; try reflexivity.
  simpl.
  assert (Hz : forall r, r ∈ level_ranks -> (z =? r)%Z = false).
  { intros r Hr. apply Z.eqb_neq. intros ->. by apply (H r). }
  unfold level_ranks in Hz.
  rewrite !Hz by (rewrite !elem_of_cons; tauto).
  reflexivity.
Qed.

(** C4.  The names and the ranks correspond one to one, up to the alias:
    every rank among 0, 10, 20, 30, 40 has a name that [_nameToLevel] maps
    back to it; [_levelToName] throws on every other number; "WARN" and
    "WARNING" both have rank 30, whose name is "WARN"; and each name but
    the alias comes back from its rank. *)
Theorem level_names_bijection :
  (forall z, z ∈ level_ranks ->
     exists name, _levelToName (VNumber (Finite z)) = Normal name /\
                  _nameToLevel (VString name) = VNumber (Finite z)) /\
  (forall n : number, (forall z, z ∈ level_ranks -> n <> Finite z) ->
     _levelToName (VNumber n) = Throw (Error "Unknown level: " (VNumber n) "")) /\
  _nameToLevel (VString "WARN") = VNumber (Finite 30) /\
  _nameToLevel (VString "WARNING") = VNumber (Finite 30) /\
  _levelToName (VNumber (Finite 30)) = Normal "WARN" /\
  (forall name, name ∈ ["ALL"; "DEBUG"; "INFO"; "WARN"; "ERROR"] ->
     _levelToName (_nameToLevel (VString name)) = Normal name).
Proof.
  split; [|split; [|repeat split]].
  - intros z Hz. unfold level_ranks in Hz.
    repeat (apply elem_of_cons in Hz as [-> | Hz]; [eexists; split; reflexivity |]).
    by apply elem_of_nil in Hz.
  - apply levelToName_unknown.
  - intros name Hn.
    repeat (apply elem_of_cons in Hn as [-> | Hn]; [reflexivity |]).
    by apply elem_of_nil in Hn.
Qed.

Lemma level_names_bijection_witness :
  (exists name, _levelToName (VNumber (Finite 20)) = Normal name /\
                _nameToLevel (VString name) = VNumber (Finite 20)) /\
  _levelToName (VNumber (Finite 25)) =
    Throw (Error "Unknown level: " (VNumber (Finite 25)) "") /\
  _levelToName (VNumber NaN) = Throw (Error "Unknown level: " (VNumber NaN) "") /\
  _levelToName (_nameToLevel (VString "ERROR")) = Normal "ERROR".
Proof.
  destruct level_names_bijection as (Hback & Hfail & _ & _ & _ & Hname).
  split; [|split; [|split]].
  - apply Hback. unfold level_ranks. rewrite !elem_of_cons. tauto.
  - apply Hfail. intros z Hz Heq. injection Heq as <-.
    unfold level_ranks in Hz. rewrite !elem_of_cons, elem_of_nil in Hz.
    lia.
  - apply Hfail. intros z _. discriminate.
  - apply Hname. rewrite !elem_of_cons. tauto.
Defined.

(** C7.  [_nameToLevel] throws on no name: for a name outside its table it
    returns the outcome of the lookup, [undefined] for "VERBOSE" and for
    the lower-case "info", and [_checkLevel] hands that on. *)
Theorem nameToLevel_unknown_name_returns :
  _nameToLevel (VString "VERBOSE") = VUndefined /\
  _nameToLevel (VString "info") = VUndefined /\
  _checkLevel (VString "VERBOSE") = Normal VUndefined.
Proof. repeat split. Qed.

(** C8.  [_checkLevel] returns a number as it is, looks a string up with
    [_nameToLevel], and throws on a value of any other type; [setLevel]
    stores what [_checkLevel] returns and throws what it throws. *)
Theorem checkLevel_by_type :
  (forall v, typeof v = "number" -> _checkLevel v = Normal v) /\
  (forall v, typeof v = "string" -> _checkLevel v = Normal (_nameToLevel v)) /\
  (forall v, typeof v <> "number" -> typeof v <> "string" ->
     _checkLevel v = Throw (Error "Level " v " unrecognized.")) /\
  (forall this v,
     Logger.setLevel this v =
       match _checkLevel v with
       | Normal rv =>
           Normal (Logger.Build (Logger._handlers this) (Logger.format this) rv)
       | Throw e => Throw e
       end).
Proof.
  repeat split.
  - intros v Hv. unfold _checkLevel. by rewrite Hv.
  - intros v Hv. unfold _checkLevel. by rewrite Hv.
  - intros v Hn Hs. unfold _checkLevel.
    apply String.eqb_neq in Hn, Hs. by rewrite Hn, Hs.
Qed.

Lemma checkLevel_by_type_witness :
  _checkLevel (VNumber (Finite 99)) = Normal (VNumber (Finite 99)) /\
  _checkLevel (VString "WARNING") = Normal (VNumber (Finite 30)) /\
  _checkLevel VNull = Throw (Error "Level " VNull " unrecognized.") /\
  _checkLevel (VBoolean true) = Throw (Error "Level " (VBoolean true) " unrecognized.").
Proof.
  destruct checkLevel_by_type as (Hnum & Hstr & Hother & _).
  split; [|split; [|split]].
  - apply Hnum. reflexivity.
  - apply (Hstr (VString "WARNING")). reflexivity.
  - apply Hother; simpl; discriminate.
  - apply Hother; simpl; discriminate.
Defined.

(** ** Strings *)

Lemma append_cons (c : ascii) (s t : string) :
  String c s +:+ t = String c (s +:+ t).
Proof. reflexivity. Qed.

Lemma append_empty_r (s : string) : s +:+ EmptyString = s.
Proof. induction s as [|c s IH]; [reflexivity|]. by rewrite append_cons, IH. Qed.

Lemma append_assoc (s t u : string) : (s +:+ t) +:+ u = s +:+ (t +:+ u).
Proof. induction s as [|c s IH]; [reflexivity|]. by rewrite !append_cons, IH. Qed.

Lemma length_append (s t : string) :
  String.length (s +:+ t) = (String.length s + String.length t)%nat.
Proof.
  induction s as [|c s IH]; [reflexivity|].
  rewrite append_cons. simpl. by rewrite IH.
Qed.

(** The template of the plugin lays a record out as
    [timestamp [LEVEL] - message]. *)
Lemma util_format_template (date name message : string) :
  util_format logging_log_format [date; name; message] =
  date +:+ " [" +:+ name +:+ "] - " +:+ message.
Proof.
  transitivity (date +:+ " [" +:+ name +:+ "] - " +:+ message +:+ EmptyString).
  - reflexivity.
  - by rewrite append_empty_r.
Qed.

(** ** Dispatch to the handlers *)

Lemma M_bind_normal {A B : Type} (m : M A) (f : A -> M B) (w w1 : world) (a : A) :
  m w = (Normal a, w1) -> (m ≫= f) w = f a w1.
Proof. intros H. unfold mbind, M_bind. by rewrite H. Qed.

(** A call of [write] on an object of the store returns, is seen once by
    the spy, and leaves the store as it is. *)
Lemma handler_write_returns (target : ref) (message : string) (lvl : value)
      (w : world) :
  is_Some (heap w !! target) ->
  exists w1, handler_write target message lvl w = (Normal tt, w1) /\
             heap w1 = heap w /\
             observed w1 = observed w ++ [write_called target message lvl].
Proof.
  intros [obj Hobj]. unfold handler_write. rewrite Hobj.
  destruct obj as [|[|]|[|] f]; simpl.
  - eexists. repeat split.
  - unfold ConsoleHandler.write.
    repeat match goal with
           | |- context [strict_equal ?a ?b] => destruct (strict_equal a b)
           end; eexists; repeat split.
  - eexists. repeat split.
  - eexists. repeat split.
  - eexists. repeat split.
Qed.

Lemma forEach_handler_write (handlers : list ref) (message : string) (w : world) :
  Forall (fun h => is_Some (heap w !! h)) handlers ->
  exists w1,
    forEach handlers (fun h => handler_write h message VUndefined) w = (Normal tt, w1) /\
    heap w1 = heap w /\
    observed w1 =
      observed w ++ map (fun h => write_called h message VUndefined) handlers.
Proof.
  revert w. induction handlers as [|h handlers IH]; intros w Hall.
  - exists w. simpl. by rewrite app_nil_r.
  - apply Forall_cons in Hall as [Hh Hall].
    destruct (handler_write_returns h message VUndefined w Hh) as (w1 & Hw & Hheap & Hobs).
    destruct (IH w1) as (w2 & Hrest & Hheap2 & Hobs2).
    { by rewrite Hheap. }
    exists w2. simpl. rewrite (M_bind_normal _ _ _ _ _ Hw), Hrest.
    repeat split; [congruence|].
    by rewrite Hobs2, Hobs, <- app_assoc.
Qed.

Lemma addHandler_appends (hs : list ref) (this : Logger.t) :
  Logger._handlers (fold_left Logger.addHandler hs this) = Logger._handlers this ++ hs /\
  Logger.level (fold_left Logger.addHandler hs this) = Logger.level this.
Proof.
  revert this. induction hs as [|h hs IH]; intros this; simpl.
  - by rewrite app_nil_r.
  - destruct (IH (Logger.addHandler this h)) as [-> ->]. simpl.
    by rewrite <- app_assoc.
Qed.

(** ** Logger *)

(** C1.  A call of [log] with a level strictly below the threshold of the
    logger ([level < this.level], which for a numeric threshold is the order
    of the numbers) returns and leaves the world as it was: no string was
    formatted, no [write] was called, nothing was printed or queued. *)
Theorem log_below_threshold_is_noop
        (StringToNumber : string -> number) (this : Logger.t)
        (level : number) (message date : string) (w : world) :
  number_lt level (ToNumber StringToNumber (Logger.level this)) = true ->
  Logger.log StringToNumber this level message date w = (Normal tt, w).
Proof.
  intros Hlt. unfold Logger.log, less_equal.
  by rewrite (number_lt_not_le _ _ Hlt).
Qed.

Lemma log_below_threshold_is_noop_witness :
  let w := World [ConsoleHandler_object true] true [] "/game" ∅ [] [] [] in
  let logger := Logger.addHandler Logger.initialize 0%nat in
  Logger.level logger = VNumber (Finite 20) /\
  Logger.log (fun _ => NaN) logger LogLevel.DEBUG "x" "2015-11-03T10:00:00.000Z" w
  = (Normal tt, w).
Proof.
  intros w logger. split; [reflexivity|].
  apply (log_below_threshold_is_noop (fun _ => NaN) logger LogLevel.DEBUG).
  reflexivity.
Defined.

(** C2, as stated, fails: level 25 passes the threshold INFO, yet the call
    throws before anything is formatted or written. *)
Lemma log_unknown_level_throws :
  let w := World [LogHandler_object] true [] "/game" ∅ [] [] [] in
  let logger := Logger.addHandler Logger.initialize 0%nat in
  less_equal (fun _ => NaN) (Logger.level logger) (Finite 25) = true /\
  Logger.log (fun _ => NaN) logger (Finite 25) "x" "2015-11-03T10:00:00.000Z" w
  = (Throw (Error "Unknown level: " (VNumber (Finite 25)) ""), w).
Proof. split; reflexivity. Qed.

(** C2, amended.  When the level passes the threshold there are two
    cases.  If the level is one that [_levelToName] names, [log] returns;
    the spy has seen one string being formatted, [date [NAME] - message],
    and then one call of [write] per attached handler with that string, in
    the order of attachment (the handlers of [this] followed by those added
    with [addHandler]).  If the level is any other number, an infinity or
    NaN included, [log] throws the error of [_levelToName] and leaves the
    world as it was: nothing was formatted and no handler was called,
    whatever the handlers are. *)
Theorem log_dispatches_in_order
        (StringToNumber : string -> number) (this : Logger.t) (hs : list ref)
        (level : number) (message date : string) (w : world) :
  less_equal StringToNumber (Logger.level this) level = true ->
  (forall name,
     _levelToName (VNumber level) = Normal name ->
     Forall (fun h => is_Some (heap w !! h)) (Logger._handlers this ++ hs) ->
     exists w1,
       Logger.log StringToNumber (fold_left Logger.addHandler hs this)
         level message date w = (Normal tt, w1) /\
       observed w1 =
         observed w ++
           format_returned (date +:+ " [" +:+ name +:+ "] - " +:+ message) ::
           map (fun h =>
                  write_called h (date +:+ " [" +:+ name +:+ "] - " +:+ message)
                    VUndefined)
             (Logger._handlers this ++ hs)) /\
  ((forall z, z ∈ level_ranks -> level <> Finite z) ->
   Logger.log StringToNumber (fold_left Logger.addHandler hs this)
     level message date w =
   (Throw (Error "Unknown level: " (VNumber level) ""), w)).
Proof.
  intros Hle.
  destruct (addHandler_appends hs this) as [Hhs Hlevel].
  split.
  - intros name Hname Hall.
    unfold Logger.log. rewrite Hlevel, Hle, Hname, Hhs, util_format_template.
    set (formatted := date +:+ " [" +:+ name +:+ "] - " +:+ message).
    destruct (forEach_handler_write (Logger._handlers this ++ hs) formatted
                (with_observed (observed w ++ [format_returned formatted]) w))
      as (w1 & Hrun & _ & Hobs); [done|].
    exists w1. split.
    + unfold mbind, M_bind, observe. exact Hrun.
    + rewrite Hobs. simpl. by rewrite <- app_assoc.
  - intros Hunknown.
    unfold Logger.log. by rewrite Hlevel, Hle, (levelToName_unknown _ Hunknown).
Qed.

Lemma log_dispatches_in_order_witness :
  let w := World [ConsoleHandler_object true; FileStreamHandler_object true "/game/game.log";
                  LogHandler_object] true [] "/game" ∅ [] [] [] in
  let logger := fold_left Logger.addHandler [2%nat; 0%nat; 1%nat] Logger.initialize in
  (exists w1,
     Logger.log (fun _ => NaN) logger LogLevel.WARN "y" "T" w = (Normal tt, w1) /\
     observed w1 =
       [format_returned "T [WARN] - y";
        write_called 2%nat "T [WARN] - y" VUndefined;
        write_called 0%nat "T [WARN] - y" VUndefined;
        write_called 1%nat "T [WARN] - y" VUndefined]) /\
  Logger.log (fun _ => NaN) logger (Finite 25) "y" "T" w =
    (Throw (Error "Unknown level: " (VNumber (Finite 25)) ""), w) /\
  Logger.log (fun _ => NaN) logger PosInfinity "y" "T" w =
    (Throw (Error "Unknown level: " (VNumber PosInfinity) ""), w).
Proof.
  intros w logger. split; [|split].
  - destruct (log_dispatches_in_order (fun _ => NaN) Logger.initialize
                [2%nat; 0%nat; 1%nat] LogLevel.WARN "y" "T" w eq_refl) as [Hnamed _].
    apply (Hnamed "WARN"); [reflexivity|].
    repeat constructor; simpl; eauto.
  - destruct (log_dispatches_in_order (fun _ => NaN) Logger.initialize
                [2%nat; 0%nat; 1%nat] (Finite 25) "y" "T" w eq_refl) as [_ Hthrows].
    apply Hthrows. intros z Hz [= <-]. revert Hz. unfold level_ranks.
    rewrite !elem_of_cons, elem_of_nil. lia.
  - destruct (log_dispatches_in_order (fun _ => NaN) Logger.initialize
                [2%nat; 0%nat; 1%nat] PosInfinity "y" "T" w eq_refl) as [_ Hthrows].
    apply Hthrows. intros z _. discriminate.
Defined.

(** A threshold that is [undefined] or an object admits no level. *)
Lemma less_equal_not_comparable (StringToNumber : string -> number)
      (threshold : value) (level : number) :
  threshold = VUndefined \/ (exists o, threshold = VObject o) ->
  less_equal StringToNumber threshold level = false.
Proof. intros [-> | [o ->]]; reflexivity. Qed.

(** C3.  Through [log] the console handler receives no level: a record
    passed on at DEBUG, INFO, WARN or ERROR reaches the generic stream
    [console.log] and no other, and the spy sees [write] called with
    [undefined] for a level; whereas [ConsoleHandler.write] called with the
    level prints to the stream of the level first. *)
Theorem log_reaches_generic_stream_only :
  forall (StringToNumber : string -> number) (message date : string),
    let w := World [ConsoleHandler_object true] true [] "/game" ∅ [] [] [] in
    let logger := Logger.Build [0%nat] EmptyString (VNumber LogLevel.ALL) in
    Forall (fun '(level, name) =>
              console_out
                (snd (Logger.log StringToNumber logger level message date w)) =
              [(console_log, date +:+ " [" +:+ name +:+ "] - " +:+ message)])
      [(LogLevel.DEBUG, "DEBUG"); (LogLevel.INFO, "INFO");
       (LogLevel.WARN, "WARN"); (LogLevel.ERROR, "ERROR")] /\
    observed (snd (Logger.info StringToNumber logger message date w)) =
      [format_returned (date +:+ " [INFO] - " +:+ message);
       write_called 0%nat (date +:+ " [INFO] - " +:+ message) VUndefined] /\
    console_out (snd (ConsoleHandler.write true message (VNumber LogLevel.INFO) w)) =
      [(console_info, message); (console_log, message)].
Proof.
  intros StringToNumber message date w logger.
  split; [|split; [|reflexivity]].
  2: { unfold Logger.info.
       change (date +:+ " [INFO] - " +:+ message)
         with (date +:+ " [" +:+ "INFO" +:+ "] - " +:+ message).
       rewrite <- util_format_template. reflexivity. }
  repeat match goal with
         | |- Forall _ (_ :: _) => apply List.Forall_cons
         | |- Forall _ [] => apply List.Forall_nil
         end;
    rewrite <- util_format_template; reflexivity.
Qed.

(** C9, as stated, fails: "toString" is no level name, and [setLevel] stores
    the function every object inherits under that name, not [undefined]. *)
Lemma setLevel_inherited_name_not_undefined :
  ("toString" ∉ level_names) /\
  Logger.setLevel Logger.initialize (VString "toString") =
    Normal (Logger.Build [] EmptyString (VObject (BuiltinFunction "toString"))) /\
  VObject (BuiltinFunction "toString") <> VUndefined.
Proof.
  split; [|split; [reflexivity | discriminate]].
  unfold level_names. rewrite !not_elem_of_cons.
  repeat split; try discriminate. apply not_elem_of_nil.
Qed.

(** C9, amended.  For a string outside the table, [setLevel] returns and
    stores what the lookup gives: [undefined], or the member inherited under
    that name; in either case no number.  From then on [log] at any level
    returns with the world untouched, and [setLevel] with a number sets the
    threshold again. *)
Theorem setLevel_unknown_name_mutes
        (StringToNumber : string -> number) (this : Logger.t) (name : string) :
  name ∉ level_names ->
  exists rv,
    let muted := Logger.Build (Logger._handlers this) (Logger.format this) rv in
    Logger.setLevel this (VString name) = Normal muted /\
    rv = default VUndefined (Object_prototype !! name) /\
    (forall n, rv <> VNumber n) /\
    (forall level message date w,
       Logger.log StringToNumber muted level message date w = (Normal tt, w)) /\
    (forall n,
       Logger.setLevel muted (VNumber n) =
         Normal (Logger.Build (Logger._handlers this) (Logger.format this) (VNumber n))).
Proof.
  intros Hname. exists (_nameToLevel (VString name)). cbv zeta.
  split; [reflexivity|].
  split; [by apply nameToLevel_outside_table|].
  split; [by apply nameToLevel_not_a_number|].
  split; [|reflexivity].
  intros level message date w. unfold Logger.log. simpl Logger.level.
  rewrite less_equal_not_comparable; [reflexivity|].
  rewrite (nameToLevel_outside_table _ Hname).
  destruct (Object_prototype !! name) as [v|] eqn:E; simpl; [|by left].
  right. by apply Object_prototype_objects in E.
Qed.

Lemma setLevel_unknown_name_mutes_witness :
  exists rv,
    let muted := Logger.Build [0%nat] EmptyString rv in
    Logger.setLevel (Logger.addHandler Logger.initialize 0%nat) (VString "VERBOSE")
      = Normal muted /\
    rv = VUndefined /\
    (forall n, rv <> VNumber n) /\
    (forall level message date w,
       Logger.log (fun _ => NaN) muted level message date w = (Normal tt, w)) /\
    (forall n,
       Logger.setLevel muted (VNumber n) =
         Normal (Logger.Build [0%nat] EmptyString (VNumber n))).
Proof.
  apply (setLevel_unknown_name_mutes (fun _ => NaN)
           (Logger.addHandler Logger.initialize 0%nat) "VERBOSE").
  unfold level_names. rewrite !not_elem_of_cons.
  repeat split; try discriminate. apply not_elem_of_nil.
Defined.

(** ** FileStreamHandler *)

Lemma append_create (path buffer : string) (f : gmap string string) :
  append path buffer (create path f) =
  <[path := default EmptyString (f !! path) +:+ buffer]> f.
Proof.
  unfold append, create. destruct (f !! path) as [c|] eqn:E.
  - by rewrite E.
  - by rewrite lookup_insert_eq, insert_insert_eq.
Qed.

(** C5, as stated, fails: the handler is ready, [write] is called, the open
    it started fails, and with nothing left to run the file has received
    no record; the callback threw instead. *)
Lemma FileStreamHandler_write_open_fails :
  let w := World [FileStreamHandler_object true "/game/game.log"] true []
             "/game" ∅ [] [] [] in
  exists w1 w2,
    FileStreamHandler.write true "/game/game.log" "x" VUndefined w = (Normal tt, w1) /\
    complete 0 (io_error "EMFILE") w1 = Some w2 /\
    pending w2 = [] /\
    files w2 = ∅ /\
    uncaught w2 =
      [Message "An error was encountered when attemping to open the log file: "
         "EMFILE"].
Proof. intros w. do 2 eexists. repeat split. Qed.

(** C5, amended.  A handler that is not ready drops the message: [write]
    returns and the world is as before.  A ready handler queues one open of
    its file; when that open and the write it starts both succeed, the file
    ends up with exactly the message and a line feed added at its end and
    nothing else in the world has changed.  When the open fails, or the
    write does, nothing is appended and the callback throws. *)
Theorem FileStreamHandler_write_appends_record :
  forall (w : world) (_logfile message : string) (level : value),
    FileStreamHandler.write false _logfile message level w = (Normal tt, w) /\
    exists w1,
      FileStreamHandler.write true _logfile message level w = (Normal tt, w1) /\
      w1 = with_pending
             (pending w ++ [fs_open _logfile (write_opened (message +:+ LF))]) w /\
      (complete (length (pending w)) io_ok w1
         ≫= complete (length (pending w)) io_ok) =
        Some (with_files
                (<[_logfile :=
                     default EmptyString (files w !! _logfile) +:+ message +:+ LF]>
                   (files w)) w) /\
      (forall code,
         complete (length (pending w)) (io_error code) w1 =
           Some (with_uncaught
                   (uncaught w ++
                      [Message "An error was encountered when attemping to open the log file: "
                         code]) w)) /\
      (forall code,
         (complete (length (pending w)) io_ok w1
            ≫= complete (length (pending w)) (io_error code)) =
           Some (with_uncaught
                   (uncaught w ++ [Message "Error writing file: " code])
                   (with_files (create _logfile (files w)) w))).
Proof.
  intros [hp c co lp fl pd un ob] _logfile message level.
  split; [reflexivity|].
  eexists. split; [reflexivity|]. split; [reflexivity|].
  unfold complete. simpl.
  rewrite !list_lookup_middle by done. rewrite !delete_middle, !app_nil_r.
  simpl. rewrite !list_lookup_middle by done. rewrite !delete_middle, !app_nil_r.
  repeat split. simpl. by rewrite append_create.
Qed.

(** ** Plugin parameters and createLogger *)

(** Whatever the plugin manager holds under a key, [Boolean(v || "true")]
    is true: the one falsy string is the empty one, and it gives way to the
    default. *)
Lemma enable_flag_true (parameters : gmap string string) (key : string) :
  ToBoolean (or_else (parameter parameters key) (VString "true")) = true.
Proof.
  unfold parameter, get, or_else. rewrite lookup_fmap.
  destruct (parameters !! key) as [s|]; cbn [fmap option_fmap option_map].
  - cbn [ToBoolean].
    destruct (String.eqb s EmptyString) eqn:E; cbn [negb ToBoolean];
      [reflexivity|by rewrite E].
  - destruct (Object_prototype !! key) as [v|] eqn:E; cbn [default];
      [|reflexivity].
    by apply Object_prototype_objects in E as [o ->].
Qed.

(** C10, as stated, fails: with a level that is neither a number nor a
    string, as the start-up passes for an unknown "Log Level", [createLogger]
    throws and attaches no handler. *)
Lemma createLogger_unknown_level_attaches_nothing :
  let parameters : gmap string string := {[ "Log Level" := "VERBOSE" ]} in
  let w := World [] true [] "/game" ∅ [] [] [] in
  let level := _nameToLevel (VString (logging_log_level parameters)) in
  level = VUndefined /\
  createLogger parameters (String.concat "/") (fun name => name) "Game" level w =
    (Throw (Error "Level " VUndefined " unrecognized."), w).
Proof. split; vm_compute; reflexivity. Qed.

(** C10, amended.  For every content of the parameter object both enable
    flags are true.  Given a level that is a number or a string,
    [createLogger] returns a logger with a new [ConsoleHandler] and a new
    [FileStreamHandler] attached, in this order, the latter not ready and
    its open pending; the threshold is the number, or what the table gives
    for the string.  Given any other level it throws the error of
    [_checkLevel] and leaves the world as it was: no handler is made. *)
Theorem createLogger_attaches_both_handlers :
  forall (parameters : gmap string string)
         (path_resolve : list string -> string) (path_basename : string -> string)
         (name : string) (level : value) (w : world),
    logging_enable_console_logger parameters = true /\
    logging_enable_file_logger parameters = true /\
    createLogger parameters path_resolve path_basename name level w =
      if String.eqb (typeof level) "number" || String.eqb (typeof level) "string"
      then
        let rv :=
          if String.eqb (typeof level) "number" then level
          else _nameToLevel level in
        let consoleHandler := length (heap w) in
        let fileStreamHandler := S (length (heap w)) in
        let _logfile :=
          path_resolve
            [logs_path w; "./"; path_basename (logging_filename parameters)] in
        (Normal (Logger.Build [consoleHandler; fileStreamHandler] EmptyString rv),
         with_pending
           (pending w ++ [fs_open _logfile (initialize_opened fileStreamHandler)])
           (with_heap
              (heap w ++ [ConsoleHandler_object (console w);
                          FileStreamHandler_object false _logfile]) w))
      else (Throw (Error "Level " level " unrecognized."), w).
Proof.
  intros parameters path_resolve path_basename name level w.
  assert (Hc : logging_enable_console_logger parameters = true)
    by apply enable_flag_true.
  assert (Hf : logging_enable_file_logger parameters = true)
    by apply enable_flag_true.
  split; [done|]. split; [done|].
  unfold createLogger, Logger.setLevel, _checkLevel. rewrite Hc, Hf.
  destruct (String.eqb (typeof level) "number") eqn:En;
    [|destruct (String.eqb (typeof level) "string") eqn:Es];
    cbn [orb]; try reflexivity.
  all: destruct w as [hp c co lp fl pd un ob].
  all: unfold mbind, M_bind, mret, M_ret, ConsoleHandler.new,
         ConsoleHandler.initialize, FileStreamHandler.new, allocate, enqueue,
         Logger.addHandler, Logger.initialize.
  all: simpl; rewrite length_app, Nat.add_1_r, <- app_assoc; simpl.
  all: by destruct c.
Qed.

(** ** resolveToLocalPath *)

Lemma plus_greedy_reads (member : ascii -> bool) (s : string)
      (k : string -> option RegExp.state) (x : RegExp.state) :
  RegExp.plus_greedy member s k = Some x ->
  exists s1, k s1 = Some x /\ (String.length s1 < String.length s)%nat.
Proof.
  induction s as [|c s IH]; simpl; [discriminate|].
  destruct (member c); [|discriminate].
  destruct (RegExp.plus_greedy member s k) as [r|] eqn:E.
  - intros [= ->]. destruct (IH eq_refl) as (s1 & Hk & Hlen).
    exists s1. split; [done|lia].
  - intros Hk. exists s. split; [done|lia].
Qed.

Lemma plus_lazy_reads (member : ascii -> bool) (s : string)
      (k : string -> option RegExp.state) (x : RegExp.state) :
  RegExp.plus_lazy member s k = Some x ->
  exists s1, k s1 = Some x /\ (String.length s1 < String.length s)%nat.
Proof.
  induction s as [|c s IH]; simpl; [discriminate|].
  destruct (member c); [|discriminate].
  destruct (k s) as [r|] eqn:E.
  - intros [= ->]. exists s. split; [done|lia].
  - intros H. destruct (IH H) as (s1 & Hk & Hlen).
    exists s1. split; [done|lia].
Qed.

(** A successful match ends in a call of its continuation on an input that
    is no longer than the one it started with. *)
Lemma matcher_reads (r : RegExp.regex) :
  forall (s : string) (cap : option string) (k : RegExp.continuation)
         (x : RegExp.state),
    RegExp.matcher r s cap k = Some x ->
    exists s1 cap1, k s1 cap1 = Some x /\ (String.length s1 <= String.length s)%nat.
Proof.
  induction r as [member | r1 IH1 r2 IH2 | r1 IH1 | member | member | r1 IH1];
    intros s cap k x; simpl.
  - destruct s as [|c s]; [discriminate|].
    destruct (member c); [|discriminate].
    intros H. exists s, cap. split; [done|simpl; lia].
  - intros H. apply IH1 in H as (s1 & cap1 & H & Hlen1).
    apply IH2 in H as (s2 & cap2 & H & Hlen2).
    exists s2, cap2. split; [done|lia].
  - destruct (RegExp.matcher r1 s cap _) as [y|] eqn:E.
    + intros [= ->]. apply IH1 in E as (s1 & cap1 & H & Hlen).
      destruct (String.length s1 =? String.length s)%nat; [discriminate|].
      exists s1, cap1. split; [done|lia].
    + intros H. exists s, cap. split; [done|lia].
  - intros H. apply plus_greedy_reads in H as (s1 & H & Hlen).
    exists s1, cap. split; [done|lia].
  - intros H. apply plus_lazy_reads in H as (s1 & H & Hlen).
    exists s1, cap. split; [done|lia].
  - intros H. apply IH1 in H as (s1 & cap1 & H & Hlen).
    eexists s1, _. split; [exact H|lia].
Qed.

Lemma match_here_reads (r : RegExp.regex) (s rest : string) (cap : option string) :
  RegExp.match_here r s = Some (rest, cap) ->
  (String.length rest <= String.length s)%nat.
Proof.
  intros H. apply matcher_reads in H as (s1 & cap1 & [= -> ->] & Hlen). done.
Qed.

(** The search visits each position at most once, so one unit of fuel per
    character and one more for the end of the string are enough. *)
Lemma replace_group1_enough_fuel (r : RegExp.regex) (fuel : nat) :
  forall s : string,
    (String.length s < fuel)%nat -> is_Some (RegExp.replace_group1 fuel r s).
Proof.
  induction fuel as [|fuel IH]; intros s Hlen; [lia|].
  simpl. destruct (RegExp.match_here r s) as [[rest cap]|] eqn:E.
  - apply match_here_reads in E.
    destruct (String.length rest =? String.length s)%nat eqn:En.
    + destruct s as [|c s]; [done|].
      destruct (IH s) as [t ->]; [simpl in Hlen; lia|done].
    + apply Nat.eqb_neq in En.
      destruct (IH rest) as [t ->]; [lia|done].
  - destruct s as [|c s]; [done|].
    destruct (IH s) as [t ->]; [simpl in Hlen; lia|done].
Qed.

(** [resolveToLocalPath] returns a string for every input. *)
Lemma resolveToLocalPath_total (filePath : string) :
  is_Some (resolveToLocalPath filePath).
Proof. apply replace_group1_enough_fuel. lia. Qed.

(** The three inputs the description of the function goes through. *)
Lemma resolveToLocalPath_examples :
  resolveToLocalPath "../../etc" = Some "etc" /\
  resolveToLocalPath "a/b/../c" = Some "c" /\
  resolveToLocalPath "../secret/logs" = Some "logs".
Proof. repeat split; vm_compute; reflexivity. Qed.

(** C6.  [resolveToLocalPath] does not always leave the last segment only:
    of a path that starts with two separators it keeps the second one, so
    an absolute path comes out, and a path that ends in [..] comes out as
    [..]. *)
Theorem resolveToLocalPath_keeps_traversal :
  resolveToLocalPath "//etc" = Some "/etc" /\
  resolveToLocalPath "../.." = Some ".." /\
  resolveToLocalPath ".." = Some ".." /\
  resolveToLocalPath "/" = Some "/".
Proof. repeat split; vm_compute; reflexivity. Qed.

(** ** Several writes, completing in any order *)

Lemma join_app (l1 l2 : list string) : join (l1 ++ l2) = join l1 +:+ join l2.
Proof.
  induction l1 as [|s l1 IH]; [reflexivity|].
  simpl. by rewrite IH, append_assoc.
Qed.

Lemma default_create (path logfile : string) (f : gmap string string) :
  default EmptyString (create path f !! logfile) = default EmptyString (f !! logfile).
Proof.
  unfold create. destruct (f !! path) eqn:E; [done|].
  destruct (decide (path = logfile)) as [<-|Hne].
  - by rewrite lookup_insert_eq, E.
  - by rewrite lookup_insert_ne.
Qed.

Lemma create_other (path other : string) (f : gmap string string) :
  other <> path -> create path f !! other = f !! other.
Proof.
  intros Hne. unfold create. destruct (f !! path); [done|].
  by rewrite lookup_insert_ne.
Qed.

(** One successful completion keeps the account: what was written so far
    ([done]) and what is still in flight ([bs]) stay the same records
    together, the file holds the old content followed by [done], and no
    other file is touched. *)
Lemma complete_ok_account (logfile old : string) (others : gmap string string)
      (i : nat) (w w1 : world) (done bs : list string) :
  Forall2 (carries logfile) (pending w) bs ->
  default EmptyString (files w !! logfile) = old +:+ join done ->
  (forall path, path <> logfile -> files w !! path = others !! path) ->
  complete i io_ok w = Some w1 ->
  exists done1 bs1,
    Forall2 (carries logfile) (pending w1) bs1 /\
    default EmptyString (files w1 !! logfile) = old +:+ join done1 /\
    (forall path, path <> logfile -> files w1 !! path = others !! path) /\
    done1 ++ bs1 ≡ₚ done ++ bs /\
    done1 = done ++ step_written i io_ok w.
Proof.
  intros Hall Hfile Hothers. unfold complete, step_written.
  destruct (pending w !! i) as [t|] eqn:Et; [|discriminate].
  intros [= <-].
  destruct (Forall2_lookup_l _ _ _ _ _ Hall Et) as (b & Eb & [-> | ->]).
  - exists done, (delete i bs ++ [b]). simpl. repeat split.
    + apply Forall2_app; [by apply Forall2_delete|].
      constructor; [by right|constructor].
    + by rewrite default_create.
    + intros path Hne. rewrite create_other by done. by apply Hothers.
    + rewrite (delete_Permutation bs i b Eb) at 2.
      by rewrite <- Permutation_middle, app_nil_r.
    + by rewrite app_nil_r.
  - exists (done ++ [b]), (delete i bs). simpl. repeat split.
    + by apply Forall2_delete.
    + unfold append. rewrite lookup_insert_eq. simpl.
      rewrite Hfile, join_app, append_assoc. simpl.
      by rewrite append_empty_r.
    + intros path Hne. unfold append. rewrite lookup_insert_ne by done.
      by apply Hothers.
    + rewrite (delete_Permutation bs i b Eb) at 2.
      by rewrite <- app_assoc.
Qed.

Lemma run_ok_account (logfile old : string) (others : gmap string string)
      (schedule : list (nat * io_result)) :
  forall (w w1 : world) (done bs : list string),
    Forall (fun step => step.2 = io_ok) schedule ->
    Forall2 (carries logfile) (pending w) bs ->
    default EmptyString (files w !! logfile) = old +:+ join done ->
    (forall path, path <> logfile -> files w !! path = others !! path) ->
    run schedule w = Some w1 ->
    exists done1 bs1,
      Forall2 (carries logfile) (pending w1) bs1 /\
      default EmptyString (files w1 !! logfile) = old +:+ join done1 /\
      (forall path, path <> logfile -> files w1 !! path = others !! path) /\
      done1 ++ bs1 ≡ₚ done ++ bs /\
      done1 = done ++ completed_writes schedule w.
Proof.
  induction schedule as [|[i r] schedule IH]; intros w w1 done bs Hok Hall Hfile Hothers.
  - intros [= <-]. exists done, bs. simpl. by rewrite app_nil_r.
  - apply Forall_cons in Hok as [Hr Hok]. simpl in Hr. subst r. simpl.
    destruct (complete i io_ok w) as [w2|] eqn:E; [|discriminate].
    intros Hrun.
    destruct (complete_ok_account _ _ _ _ _ _ _ _ Hall Hfile Hothers E)
      as (done2 & bs2 & Hall2 & Hfile2 & Hothers2 & Hperm2 & Hdone2).
    destruct (IH _ _ _ _ Hok Hall2 Hfile2 Hothers2 Hrun)
      as (done1 & bs1 & Hall1 & Hfile1 & Hothers1 & Hperm1 & Hdone1).
    exists done1, bs1. repeat split; try done; [by rewrite Hperm1|].
    by rewrite Hdone1, Hdone2, <- app_assoc.
Qed.

(** What a row of writes on a ready handler leaves behind: one open per
    message, in the order of the calls, and nothing else. *)
Lemma forEach_write_queues (logfile : string) (ms : list string) :
  forall w : world,
    forEach ms (fun m => FileStreamHandler.write true logfile m VUndefined) w =
    (Normal tt,
     with_pending
       (pending w ++ map (fun m => fs_open logfile (write_opened (m +:+ LF))) ms) w).
Proof.
  induction ms as [|m ms IH]; intros [hp c co lp fl pd un ob].
  - simpl. unfold with_pending. simpl. by rewrite app_nil_r.
  - simpl. unfold mbind, M_bind. simpl. rewrite IH.
    unfold with_pending. simpl. by rewrite <- app_assoc.
Qed.

(** Any number of writes on a ready handler of an idle world, completing
    in any order and all of them successfully: once nothing is pending the
    file holds its old content followed by one record per call, each the
    message and a line feed, in the order in which the schedule completed
    the writes; the other files are as before. *)
Theorem FileStreamHandler_one_record_per_write
        (logfile : string) (ms : list string)
        (schedule : list (nat * io_result)) (w w1 : world) :
  pending w = [] ->
  Forall (fun step => step.2 = io_ok) schedule ->
  run schedule
    (forEach ms (fun m => FileStreamHandler.write true logfile m VUndefined) w).2
    = Some w1 ->
  pending w1 = [] ->
  exists order,
    order ≡ₚ ms /\
    map (fun m => m +:+ LF) order =
      completed_writes schedule
        (forEach ms (fun m => FileStreamHandler.write true logfile m VUndefined) w).2 /\
    default EmptyString (files w1 !! logfile) =
      default EmptyString (files w !! logfile)
        +:+ join (map (fun m => m +:+ LF) order) /\
    (forall path, path <> logfile -> files w1 !! path = files w !! path).
Proof.
  intros Hidle Hok Hrun Hend.
  rewrite forEach_write_queues, Hidle in Hrun. simpl in Hrun.
  assert (Hq : Forall2 (carries logfile)
                 (map (fun m => fs_open logfile (write_opened (m +:+ LF))) ms)
                 (map (fun m => m +:+ LF) ms)).
  { clear. induction ms as [|m ms IH]; constructor; [by left|done]. }
  assert (Hold : default EmptyString (files w !! logfile) =
                 default EmptyString (files w !! logfile) +:+ join []).
  { simpl. by rewrite append_empty_r. }
  destruct (run_ok_account logfile _ (files w) schedule
              (with_pending
                 (map (fun m => fs_open logfile (write_opened (m +:+ LF))) ms) w)
              w1 [] _ Hok Hq Hold)
    as (done1 & bs1 & Hall & Hfile & Hothers & Hperm & Hdone); [done|done|].
  rewrite Hend in Hall. apply Forall2_nil_inv_l in Hall as ->.
  rewrite app_nil_r in Hperm. simpl in Hperm, Hdone.
  apply Permutation_map_inv in Hperm as (order & Horder & Hperm).
  exists order. split; [done|]. rewrite <- Horder.
  split; [|by split].
  by rewrite Hdone, forEach_write_queues, Hidle.
Qed.

Lemma FileStreamHandler_one_record_per_write_witness :
  let w := World [FileStreamHandler_object true "/game/game.log"] true []
             "/game" ∅ [] [] [] in
  let schedule := [(1%nat, io_ok); (0%nat, io_ok); (0%nat, io_ok); (0%nat, io_ok)] in
  let w1 :=
    default w
      (run schedule
         (forEach ["a"; "b"]
            (fun m => FileStreamHandler.write true "/game/game.log" m VUndefined) w).2) in
  files w1 !! "/game/game.log" = Some ("b" +:+ LF +:+ "a" +:+ LF) /\
  completed_writes schedule
    (forEach ["a"; "b"]
       (fun m => FileStreamHandler.write true "/game/game.log" m VUndefined) w).2
    = ["b" +:+ LF; "a" +:+ LF] /\
  exists order,
    order ≡ₚ ["a"; "b"] /\
    map (fun m => m +:+ LF) order =
      completed_writes schedule
        (forEach ["a"; "b"]
           (fun m => FileStreamHandler.write true "/game/game.log" m VUndefined) w).2 /\
    default EmptyString (files w1 !! "/game/game.log") =
      default EmptyString (files w !! "/game/game.log")
        +:+ join (map (fun m => m +:+ LF) order) /\
    (forall path, path <> "/game/game.log" -> files w1 !! path = files w !! path).
Proof.
  intros w schedule w1. split; [reflexivity|].
  split; [vm_compute; reflexivity|].
  apply (FileStreamHandler_one_record_per_write "/game/game.log" ["a"; "b"]
           schedule w w1).
  - reflexivity.
  - repeat constructor.
  - vm_compute. reflexivity.
  - vm_compute. reflexivity.
Defined.

(** ** Readiness of a FileStreamHandler *)

(** A new [FileStreamHandler] is not ready and has one open pending.  When
    that open succeeds the handler, seen through the same reference, is
    ready and the file exists; when it fails the handler stays as it was and
    the callback throws the error. *)
Lemma FileStreamHandler_ready_after_open
      (path_resolve : list string -> string) (fileName : string) (w : world) :
  let _logfile := path_resolve [logs_path w; "./"; fileName] in
  let self := length (heap w) in
  exists w1,
    FileStreamHandler.new path_resolve fileName w = (Normal self, w1) /\
    heap w1 !! self = Some (FileStreamHandler_object false _logfile) /\
    pending w1 = pending w ++ [fs_open _logfile (initialize_opened self)] /\
    (exists w2,
       complete (length (pending w)) io_ok w1 = Some w2 /\
       heap w2 !! self = Some (FileStreamHandler_object true _logfile) /\
       is_Some (files w2 !! _logfile) /\
       pending w2 = pending w) /\
    (forall code, exists w2,
       complete (length (pending w)) (io_error code) w1 = Some w2 /\
       heap w2 !! self = Some (FileStreamHandler_object false _logfile) /\
       files w2 = files w /\
       uncaught w2 = uncaught w ++ [ErrnoException code]).
Proof.
  destruct w as [hp c co lp fl pd un ob]. cbv zeta. simpl.
  eexists. split; [reflexivity|]. simpl.
  split; [by apply list_lookup_middle|]. split; [reflexivity|].
  unfold complete. simpl. rewrite !list_lookup_middle by done.
  rewrite !delete_middle, !app_nil_r. split.
  - eexists. split; [reflexivity|]. simpl. repeat split.
    + rewrite list_lookup_alter_eq, list_lookup_middle by done. reflexivity.
    + unfold create. destruct (fl !! _) eqn:E; [by rewrite E|].
      by rewrite lookup_insert_eq.
  - intros code. eexists. split; [reflexivity|]. simpl. repeat split.
    by apply list_lookup_middle.
Qed.

(** ** resolveToLocalPath on well-formed paths *)

(** The equations of the matcher, one per construct. *)
Lemma matcher_Seq (r1 r2 : RegExp.regex) (s : string) (cap : option string)
      (k : RegExp.continuation) :
  RegExp.matcher (RegExp.Seq r1 r2) s cap k =
  RegExp.matcher r1 s cap (fun s1 cap1 => RegExp.matcher r2 s1 cap1 k).
Proof. reflexivity. Qed.

Lemma matcher_Optional (r : RegExp.regex) (s : string) (cap : option string)
      (k : RegExp.continuation) :
  RegExp.matcher (RegExp.Optional r) s cap k =
  match RegExp.matcher r s cap
          (fun s1 cap1 =>
             if (String.length s1 =? String.length s)%nat then None
             else k s1 cap1) with
  | Some x => Some x
  | None => k s cap
  end.
Proof. reflexivity. Qed.

Lemma matcher_Plus (member : ascii -> bool) (s : string) (cap : option string)
      (k : RegExp.continuation) :
  RegExp.matcher (RegExp.Plus member) s cap k =
  RegExp.plus_greedy member s (fun s1 => k s1 cap).
Proof. reflexivity. Qed.

Lemma matcher_PlusLazy (member : ascii -> bool) (s : string) (cap : option string)
      (k : RegExp.continuation) :
  RegExp.matcher (RegExp.PlusLazy member) s cap k =
  RegExp.plus_lazy member s (fun s1 => k s1 cap).
Proof. reflexivity. Qed.

Lemma matcher_Class (member : ascii -> bool) (c : ascii) (s : string)
      (cap : option string) (k : RegExp.continuation) :
  RegExp.matcher (RegExp.Class member) (String c s) cap k =
  if member c then k s cap else None.
Proof. reflexivity. Qed.

Lemma separator_is_dot (c : ascii) : separator c = true -> dot c = true.
Proof.
  unfold separator, dot. intros H. apply orb_true_iff in H as [H | H];
    apply Ascii.eqb_eq in H; subst; reflexivity.
Qed.

Lemma plain_inv (c : ascii) :
  plain c = true -> dot c = true /\ separator c = false.
Proof.
  unfold plain. intros H. apply andb_true_iff in H as [H1 H2].
  split; [done|]. by apply negb_true_iff.
Qed.

(** A run of separators cannot start inside a segment or at its end. *)
Lemma no_separator_run (t : string) (cap : option string)
      (k : RegExp.continuation) :
  all_chars plain t = true ->
  RegExp.matcher (RegExp.PlusLazy separator) t cap k = None.
Proof.
  intros Ht. rewrite matcher_PlusLazy. destruct t as [|b t]; [reflexivity|].
  simpl in Ht. apply andb_true_iff in Ht as [Hb _].
  apply plain_inv in Hb as [_ Hb]. cbn [RegExp.plus_lazy]. by rewrite Hb.
Qed.

(** Over a segment the greedy run finds no separator to stop in front of. *)
Lemma greedy_finds_no_separator (t : string) (cap : option string)
      (k : RegExp.continuation) :
  all_chars plain t = true ->
  RegExp.plus_greedy dot t
    (fun s1 => RegExp.matcher (RegExp.PlusLazy separator) s1 cap k) = None.
Proof.
  induction t as [|a t IH]; [reflexivity|].
  simpl all_chars. intros H. apply andb_true_iff in H as [Ha Ht].
  apply plain_inv in Ha as [Hd Hs].
  cbn [RegExp.plus_greedy]. by rewrite Hd, (IH Ht), no_separator_run.
Qed.

Lemma consumed_one (a : ascii) (t : string) :
  RegExp.consumed (String a t) t = String a EmptyString.
Proof.
  unfold RegExp.consumed. simpl String.length.
  replace (S (String.length t) - String.length t)%nat with 1%nat by lia.
  simpl. by destruct t.
Qed.

Lemma no_separator_ahead (t : string) (cap : option string)
      (k : RegExp.continuation) :
  all_chars plain t = true ->
  RegExp.matcher (RegExp.Optional (RegExp.Class separator)) t cap k = k t cap.
Proof.
  intros Ht. destruct t as [|b t]; [reflexivity|].
  simpl in Ht. apply andb_true_iff in Ht as [Hb _].
  apply plain_inv in Hb as [_ Hb]. simpl. by rewrite Hb.
Qed.

(** At the head of a segment the group takes the first character and the
    optional separator after it takes nothing. *)
Lemma capture_first_char (a : ascii) (t : string) (cap : option string)
      (k : RegExp.continuation) (x : RegExp.state) :
  plain a = true -> all_chars plain t = true ->
  k t (Some (String a EmptyString)) = Some x ->
  RegExp.matcher
    (RegExp.Seq (RegExp.Capture (RegExp.PlusLazy dot))
       (RegExp.Optional (RegExp.Class separator))) (String a t) cap k = Some x.
Proof.
  intros Ha Ht Hk. apply plain_inv in Ha as [Hd Hs].
  change (RegExp.plus_lazy dot (String a t)
            (fun s1 =>
               RegExp.matcher (RegExp.Optional (RegExp.Class separator)) s1
                 (Some (RegExp.consumed (String a t) s1)) k) = Some x).
  cbn [RegExp.plus_lazy]. rewrite Hd.
  by rewrite no_separator_ahead, consumed_one, Hk.
Qed.

(** At the head of a segment the optional group finds nothing to take, and
    the match is the first character. *)
Lemma group_absent (a : ascii) (t : string) (cap : option string)
      (k : RegExp.continuation) (x : RegExp.state) :
  plain a = true -> all_chars plain t = true ->
  k t (Some (String a EmptyString)) = Some x ->
  RegExp.matcher
    (RegExp.Seq
       (RegExp.Optional (RegExp.Seq (RegExp.Plus dot) (RegExp.PlusLazy separator)))
       (RegExp.Seq (RegExp.Capture (RegExp.PlusLazy dot))
          (RegExp.Optional (RegExp.Class separator))))
    (String a t) cap k = Some x.
Proof.
  intros Ha Ht Hk.
  assert (Hat : all_chars plain (String a t) = true) by (simpl; by rewrite Ha, Ht).
  rewrite matcher_Seq, matcher_Optional, matcher_Seq, matcher_Plus.
  rewrite greedy_finds_no_separator by done.
  by apply capture_first_char.
Qed.

(** Inside a segment each match is one character long and stands for
    itself. *)
Lemma match_here_plain (a : ascii) (t : string) :
  plain a = true -> all_chars plain t = true ->
  RegExp.match_here pattern (String a t) = Some (t, Some (String a EmptyString)).
Proof.
  intros Ha Ht.
  assert (Hat : all_chars plain (String a t) = true) by (simpl; by rewrite Ha, Ht).
  unfold RegExp.match_here, pattern.
  rewrite matcher_Seq, no_separator_ahead by done.
  by apply group_absent.
Qed.

(** A string of segment characters comes out as it is. *)
Lemma replace_group1_plain (t : string) :
  all_chars plain t = true ->
  forall fuel, (String.length t < fuel)%nat ->
    RegExp.replace_group1 fuel pattern t = Some t.
Proof.
  induction t as [|a t IH]; intros Ht [|fuel] Hlen; try (simpl in Hlen; lia).
  - reflexivity.
  - simpl in Ht. apply andb_true_iff in Ht as [Ha Ht].
    cbn [RegExp.replace_group1]. rewrite (match_here_plain a t Ha Ht).
    replace (String.length t =? String.length (String a t))%nat with false
      by (symmetry; apply Nat.eqb_neq; simpl; lia).
    rewrite (IH Ht) by (simpl in Hlen; lia). reflexivity.
Qed.

(** The greedy run stops at the last place from which the rest of the
    pattern matches. *)
Lemma greedy_stops_last (q rest : string) (k : string -> option RegExp.state)
      (x : RegExp.state) :
  q <> EmptyString -> all_chars dot q = true ->
  RegExp.plus_greedy dot rest k = None -> k rest = Some x ->
  RegExp.plus_greedy dot (q +:+ rest) k = Some x.
Proof.
  intros Hq Hdot Hnone Hk. induction q as [|a q IH]; [done|].
  simpl in Hdot. apply andb_true_iff in Hdot as [Ha Hdot].
  rewrite append_cons. cbn [RegExp.plus_greedy]. rewrite Ha.
  destruct q as [|b q].
  - change (EmptyString +:+ rest) with rest. by rewrite Hnone.
  - by rewrite IH.
Qed.


(** In front of the last segment the optional group takes everything up to
    the separator before it, however many segments that is. *)
Lemma group_takes_prefix (q : string) (c a : ascii) (t : string)
      (cap : option string) (k : RegExp.continuation) (x : RegExp.state) :
  q <> EmptyString -> all_chars dot q = true -> separator c = true ->
  plain a = true -> all_chars plain t = true ->
  k t (Some (String a EmptyString)) = Some x ->
  RegExp.matcher
    (RegExp.Seq
       (RegExp.Optional (RegExp.Seq (RegExp.Plus dot) (RegExp.PlusLazy separator)))
       (RegExp.Seq (RegExp.Capture (RegExp.PlusLazy dot))
          (RegExp.Optional (RegExp.Class separator))))
    (q +:+ String c (String a t)) cap k = Some x.
Proof.
  intros Hq Hdot Hc Ha Ht Hk.
  assert (Hat : all_chars plain (String a t) = true) by (simpl; by rewrite Ha, Ht).
  destruct (plain_inv _ Ha) as [Hd Hs].
  rewrite matcher_Seq, matcher_Optional, matcher_Seq, matcher_Plus.
  erewrite greedy_stops_last; [reflexivity|done|done| |].
  - change (RegExp.plus_greedy dot (String c (String a t)) ?k)
      with (if dot c then
              match RegExp.plus_greedy dot (String a t) k with
              | Some r => Some r
              | None => k (String a t)
              end
            else None).
    rewrite (separator_is_dot _ Hc).
    by rewrite greedy_finds_no_separator, no_separator_run.
  - rewrite matcher_PlusLazy. cbn [RegExp.plus_lazy]. rewrite Hc.
    replace (String.length (String a t) =?
             String.length (q +:+ String c (String a t)))%nat with false
      by (symmetry; apply Nat.eqb_neq; rewrite length_append; simpl; lia).
    by rewrite (capture_first_char a t cap k x).
Qed.

(** The first match of a path that ends in a separator and a segment: it
    runs up to the first character of the segment, which is its group. *)
Lemma match_here_last_segment (p : string) (c a : ascii) (t : string) :
  all_chars dot p = true ->
  (forall d, separator d = true -> p <> String d EmptyString) ->
  separator c = true -> plain a = true -> all_chars plain t = true ->
  RegExp.match_here pattern (p +:+ String c (String a t)) =
  Some (t, Some (String a EmptyString)).
Proof.
  intros Hdot Hp Hc Ha Ht.
  unfold RegExp.match_here, pattern. rewrite matcher_Seq, matcher_Optional.
  destruct p as [|d p].
  - change (EmptyString +:+ String c (String a t)) with (String c (String a t)).
    rewrite matcher_Class, Hc.
    replace (String.length (String a t) =?
             String.length (String c (String a t)))%nat with false
      by (symmetry; apply Nat.eqb_neq; simpl; lia).
    by rewrite (group_absent a t None _ (t, Some (String a EmptyString))).
  - rewrite append_cons, matcher_Class.
    simpl in Hdot. apply andb_true_iff in Hdot as [Hd Hdot].
    destruct (separator d) eqn:Ed.
    + assert (Hne : p <> EmptyString) by (intros ->; by apply (Hp d)).
      replace (String.length (p +:+ String c (String a t)) =?
               String.length (String d (p +:+ String c (String a t))))%nat
        with false by (symmetry; apply Nat.eqb_neq; simpl; lia).
      by rewrite (group_takes_prefix p c a t None _ (t, Some (String a EmptyString))).
    + rewrite <- append_cons.
      apply group_takes_prefix; try done.
      simpl. by rewrite Hd, Hdot.
Qed.

(** A path that ends in a separator and a non-empty segment of ordinary
    characters is reduced to that segment, unless what stands before the
    separator is one separator and nothing else. *)
Theorem resolveToLocalPath_last_segment (p : string) (c : ascii) (seg : string) :
  all_chars dot p = true ->
  (forall d, separator d = true -> p <> String d EmptyString) ->
  separator c = true ->
  seg <> EmptyString -> all_chars plain seg = true ->
  resolveToLocalPath (p +:+ String c seg) = Some seg.
Proof.
  intros Hdot Hp Hc Hseg Hplain. destruct seg as [|a t]; [done|].
  simpl in Hplain. apply andb_true_iff in Hplain as [Ha Ht].
  unfold resolveToLocalPath, RegExp.replace. cbn [RegExp.replace_group1].
  rewrite match_here_last_segment by done.
  replace (String.length t =? String.length (p +:+ String c (String a t)))%nat
    with false by (symmetry; apply Nat.eqb_neq; rewrite length_append; simpl; lia).
  rewrite replace_group1_plain; [reflexivity|done|].
  rewrite length_append. simpl. lia.
Qed.

Lemma resolveToLocalPath_last_segment_witness :
  resolveToLocalPath "../secret/logs" = Some "logs".
Proof.
  apply (resolveToLocalPath_last_segment "../secret" "/" "logs").
  - reflexivity.
  - intros d _. discriminate.
  - reflexivity.
  - discriminate.
  - reflexivity.
Defined.

(** ** More on the level table *)

(** [_nameToLevel] gives a number for the six names of its table and for no
    other string: a name and a number go together exactly when the table
    pairs them. *)
Theorem nameToLevel_number_iff (name : string) (n : number) :
  _nameToLevel (VString name) = VNumber n <->
  exists rank, n = Finite rank /\
    (name, rank) ∈ [("ALL", 0); ("DEBUG", 10); ("INFO", 20); ("WARN", 30);
                    ("WARNING", 30); ("ERROR", 40)].
Proof.
  split.
  - intros H. destruct (decide (name ∈ level_names)) as [Hin | Hout].
    + unfold level_names in Hin.
      repeat (apply elem_of_cons in Hin as [-> | Hin];
              [injection H as <-; eexists; split; [reflexivity|];
               rewrite !elem_of_cons; tauto |]).
      by apply elem_of_nil in Hin.
    + by apply nameToLevel_not_a_number with (n := n) in Hout.
  - intros (rank & -> & Hin).
    repeat (apply elem_of_cons in Hin as [[= -> ->] | Hin]; [reflexivity |]).
    by apply elem_of_nil in Hin.
Qed.

(** What [_nameToLevel] returns for a string is a number, [undefined] or an
    object, whatever the string. *)
Lemma nameToLevel_kinds (name : string) :
  (exists n, _nameToLevel (VString name) = VNumber n) \/
  _nameToLevel (VString name) = VUndefined \/
  (exists o, _nameToLevel (VString name) = VObject o).
Proof.
  destruct (decide (name ∈ level_names)) as [Hin | Hout].
  - left. unfold level_names in Hin.
    repeat (apply elem_of_cons in Hin as [-> | Hin]; [eexists; reflexivity |]).
    by apply elem_of_nil in Hin.
  - right. rewrite (nameToLevel_outside_table _ Hout).
    destruct (Object_prototype !! name) as [v|] eqn:E; simpl; [|by left].
    right. by apply Object_prototype_objects in E.
Qed.

Lemma levelToName_inv (v : value) (name : string) :
  _levelToName v = Normal name ->
  exists z, v = VNumber (Finite z) /\
    (z, name) ∈ [(0, "ALL"); (10, "DEBUG"); (40, "ERROR"); (20, "INFO"); (30, "WARN")].
Proof.
  unfold _levelToName.
  destruct v as [| | b | [z| | |] | s | o]; simpl; try discriminate.
  repeat match goal with
         | |- context [(z =? ?r)%Z] =>
             destruct (Z.eqb_spec z r) as [-> | _];
             [intros [= <-]; eexists; split; [reflexivity|];
              rewrite !elem_of_cons; tauto |]
         end.
  discriminate.
Qed.

(** [_getLevelName] returns a result for the five ranks only, and then the
    name of the rank; on every other value it throws, a level name such as
    "INFO" included, and the lookup by name it holds in reserve is never
    made. *)
Theorem getLevelName_ranks_only :
  (forall v r, _getLevelName v = Normal r ->
     exists z name, v = VNumber (Finite z) /\ r = VString name /\
       (z, name) ∈ [(0, "ALL"); (10, "DEBUG"); (40, "ERROR"); (20, "INFO");
                    (30, "WARN")]) /\
  (forall v, typeof v <> "number" ->
     _getLevelName v = Throw (Error "Unknown level: " v "")) /\
  (forall v, _getLevelName v =
     match _levelToName v with
     | Normal name => Normal (VString name)
     | Throw e => Throw e
     end).
Proof.
  assert (Hsame : forall v, _getLevelName v =
     match _levelToName v with
     | Normal name => Normal (VString name)
     | Throw e => Throw e
     end).
  { intros v. unfold _getLevelName.
    destruct (_levelToName v) as [name|e] eqn:E; [|reflexivity].
    apply levelToName_inv in E as (z & _ & Hin).
    repeat (apply elem_of_cons in Hin as [[= _ ->] | Hin]; [reflexivity |]).
    by apply elem_of_nil in Hin. }
  split; [|split; [|exact Hsame]].
  - intros v r. rewrite Hsame.
    destruct (_levelToName v) as [name|e] eqn:E; [|discriminate].
    intros [= <-]. apply levelToName_inv in E as (z & -> & Hin). eauto.
  - intros v Hv. rewrite Hsame.
    destruct v as [| | b | n | s | o]; try reflexivity.
    by destruct Hv.
Qed.

Lemma getLevelName_ranks_only_witness :
  _getLevelName (VString "INFO") = Throw (Error "Unknown level: " (VString "INFO") "") /\
  _getLevelName (VNumber (Finite 20)) = Normal (VString "INFO").
Proof.
  destruct getLevelName_ranks_only as (_ & Hthrow & Hsame).
  split.
  - apply Hthrow. simpl. discriminate.
  - rewrite Hsame. reflexivity.
Defined.

(** ** Loggers the plugin can build *)

Lemma checkLevel_kinds (v rv : value) :
  _checkLevel v = Normal rv ->
  (exists n, rv = VNumber n) \/ rv = VUndefined \/ (exists o, rv = VObject o).
Proof.
  destruct v as [| | b | n | s | [|f]]; try discriminate.
  - intros [= <-]. left. eauto.
  - intros [= <-]. apply nameToLevel_kinds.
Qed.

(** The threshold of a logger made by [new Logger()], [addHandler] and
    [setLevel] is a number, [undefined] or an inherited object, never a
    string, a boolean or [null]; so the comparison in [log] never has a
    string to convert, and [log] does the same whatever the conversion of
    strings to numbers is taken to be. *)
Theorem built_logger_threshold (this : Logger.t) :
  built this ->
  ((exists n, Logger.level this = VNumber n) \/
   Logger.level this = VUndefined \/
   (exists o, Logger.level this = VObject o)) /\
  (forall (StringToNumber1 StringToNumber2 : string -> number)
          (level : number) (message date : string) (w : world),
     Logger.log StringToNumber1 this level message date w =
     Logger.log StringToNumber2 this level message date w).
Proof.
  intros Hb.
  assert (Hk : (exists n, Logger.level this = VNumber n) \/
               Logger.level this = VUndefined \/
               (exists o, Logger.level this = VObject o)).
  { induction Hb as [|this h _ IH|this this1 lvl _ _ Hset].
    - left. by eexists.
    - exact IH.
    - unfold Logger.setLevel in Hset.
      destruct (_checkLevel lvl) as [rv|e] eqn:E; [|discriminate].
      injection Hset as <-. simpl. by apply checkLevel_kinds in E. }
  split; [exact Hk|].
  intros S1 S2 level message date w. unfold Logger.log, less_equal.
  by destruct Hk as [[n ->] | [-> | [o ->]]].
Qed.

Lemma built_logger_threshold_witness :
  let this := Logger.Build [0%nat] EmptyString (VNumber (Finite 30)) in
  ((exists n, Logger.level this = VNumber n) \/
   Logger.level this = VUndefined \/
   (exists o, Logger.level this = VObject o)) /\
  (forall (StringToNumber1 StringToNumber2 : string -> number)
          (level : number) (message date : string) (w : world),
     Logger.log StringToNumber1 this level message date w =
     Logger.log StringToNumber2 this level message date w).
Proof.
  intros this. apply (built_logger_threshold this).
  apply (built_setLevel (Logger.addHandler Logger.initialize 0%nat) this
           (VString "WARN")).
  - apply built_addHandler, built_new.
  - reflexivity.
Defined.

(** [error], [debug], [info] and [warn] never throw on a logger whose
    handlers are objects of the store: each passes a rank [_levelToName]
    knows.  A method whose rank the threshold admits formats one record
    under the method's own name and calls every handler once with it; a
    method whose rank it does not admit leaves the world as it is. *)
Theorem convenience_methods_return
        (StringToNumber : string -> number) (this : Logger.t)
        (message date : string) (w : world) :
  Forall (fun h => is_Some (heap w !! h)) (Logger._handlers this) ->
  Forall (fun '(method, rank, name) =>
            exists w1,
              method StringToNumber this message date w = (Normal tt, w1) /\
              if less_equal StringToNumber (Logger.level this) rank then
                observed w1 =
                  observed w ++
                    format_returned (date +:+ " [" +:+ name +:+ "] - " +:+ message) ::
                    map (fun h =>
                           write_called h
                             (date +:+ " [" +:+ name +:+ "] - " +:+ message) VUndefined)
                      (Logger._handlers this)
              else w1 = w)
    [(Logger.error, LogLevel.ERROR, "ERROR"); (Logger.debug, LogLevel.DEBUG, "DEBUG");
     (Logger.info, LogLevel.INFO, "INFO"); (Logger.warn, LogLevel.WARN, "WARN")].
Proof.
  intros Hall.
  assert (Hlog : forall rank name,
             _levelToName (VNumber rank) = Normal name ->
             exists w1,
               Logger.log StringToNumber this rank message date w = (Normal tt, w1) /\
               if less_equal StringToNumber (Logger.level this) rank then
                 observed w1 =
                   observed w ++
                     format_returned (date +:+ " [" +:+ name +:+ "] - " +:+ message) ::
                     map (fun h =>
                            write_called h
                              (date +:+ " [" +:+ name +:+ "] - " +:+ message) VUndefined)
                       (Logger._handlers this)
               else w1 = w).
  { intros rank name Hname. unfold Logger.log.
    destruct (less_equal StringToNumber (Logger.level this) rank); [|by exists w].
    rewrite Hname, util_format_template.
    set (formatted := date +:+ " [" +:+ name +:+ "] - " +:+ message).
    destruct (forEach_handler_write (Logger._handlers this) formatted
                (with_observed (observed w ++ [format_returned formatted]) w))
      as (w1 & Hrun & _ & Hobs); [done|].
    exists w1. split; [exact Hrun|].
    rewrite Hobs. simpl. by rewrite <- app_assoc. }
  repeat match goal with
         | |- Forall _ (_ :: _) => apply List.Forall_cons
         | |- Forall _ [] => apply List.Forall_nil
         end; by apply Hlog.
Qed.

Lemma convenience_methods_return_witness :
  let w := World [ConsoleHandler_object true] true [] "/game" ∅ [] [] [] in
  let this := Logger.addHandler Logger.initialize 0%nat in
  (exists w1, Logger.debug (fun _ => NaN) this "x" "T" w = (Normal tt, w1) /\ w1 = w) /\
  (exists w1, Logger.warn (fun _ => NaN) this "x" "T" w = (Normal tt, w1) /\
     observed w1 = [format_returned "T [WARN] - x";
                    write_called 0%nat "T [WARN] - x" VUndefined]).
Proof.
  intros w this.
  pose proof (convenience_methods_return (fun _ => NaN) this "x" "T" w) as H.
  assert (Hall : Forall (fun h => is_Some (heap w !! h)) (Logger._handlers this))
    by (repeat constructor; simpl; eauto).
  specialize (H Hall).
  inversion H as [|? ? _ H1]; subst. inversion H1 as [|? ? Hdebug H2]; subst.
  inversion H2 as [|? ? _ H3]; subst. inversion H3 as [|? ? Hwarn _]; subst.
  split; [exact Hdebug | exact Hwarn].
Defined.

(** ** ConsoleHandler *)

(** A handler that is not ready prints nothing.  A ready one always ends
    with [console.log]; before it, it prints the message to [console.debug],
    [console.info], [console.warn] or [console.error] exactly when the
    level is DEBUG, INFO, WARN or ERROR, and to that stream only; it prints
    to none of them for any other level: one that is no number (absent, or
    the name of a level), [LogLevel.ALL], or any other number. *)
Theorem ConsoleHandler_write_streams (message : string) (level : value) (w : world) :
  ConsoleHandler.write false message level w = (Normal tt, w) /\
  exists routed,
    ConsoleHandler.write true message level w =
      (Normal tt,
       with_console_out (console_out w ++ routed ++ [(console_log, message)]) w) /\
    (routed = [] \/ exists s, routed = [(s, message)] /\ s <> console_log) /\
    (typeof level <> "number" -> routed = []) /\
    (level = VNumber LogLevel.ALL -> routed = []) /\
    (forall s, routed = [(s, message)] <->
       (s, level) ∈ [(console_debug, VNumber LogLevel.DEBUG);
                     (console_info, VNumber LogLevel.INFO);
                     (console_warn, VNumber LogLevel.WARN);
                     (console_error, VNumber LogLevel.ERROR)]).
Proof.
  split; [reflexivity|].
  assert (Hnone : forall s,
            (forall z, z ∈ [10; 20; 30; 40] -> level <> VNumber (Finite z)) ->
            (@nil (stream * string) = [(s, message)] <->
             (s, level) ∈ [(console_debug, VNumber LogLevel.DEBUG);
                           (console_info, VNumber LogLevel.INFO);
                           (console_warn, VNumber LogLevel.WARN);
                           (console_error, VNumber LogLevel.ERROR)])).
  { intros s Hz. split; [discriminate|]. intros Hin. exfalso.
    rewrite !elem_of_cons, elem_of_nil in Hin.
    destruct Hin as [[= _ E] | [[= _ E] | [[= _ E] | [[= _ E] | []]]]];
      revert E; apply Hz; rewrite !elem_of_cons; tauto. }
  assert (Hone : forall s0 z0 s,
            (s0, VNumber (Finite z0)) ∈
              [(console_debug, VNumber LogLevel.DEBUG);
               (console_info, VNumber LogLevel.INFO);
               (console_warn, VNumber LogLevel.WARN);
               (console_error, VNumber LogLevel.ERROR)] ->
            (forall s1, (s1, VNumber (Finite z0)) ∈
               [(console_debug, VNumber LogLevel.DEBUG);
                (console_info, VNumber LogLevel.INFO);
                (console_warn, VNumber LogLevel.WARN);
                (console_error, VNumber LogLevel.ERROR)] -> s1 = s0) ->
            ([(s0, message)] = [(s, message)] <->
             (s, VNumber (Finite z0)) ∈
               [(console_debug, VNumber LogLevel.DEBUG);
                (console_info, VNumber LogLevel.INFO);
                (console_warn, VNumber LogLevel.WARN);
                (console_error, VNumber LogLevel.ERROR)])).
  { intros s0 z0 s Hin Huniq. split.
    - by intros [= <-].
    - intros Hs. by rewrite (Huniq s Hs). }
  assert (Huniq : forall s0 z0 s1,
            (s0, VNumber (Finite z0)) ∈
              [(console_debug, VNumber LogLevel.DEBUG);
               (console_info, VNumber LogLevel.INFO);
               (console_warn, VNumber LogLevel.WARN);
               (console_error, VNumber LogLevel.ERROR)] ->
            (s1, VNumber (Finite z0)) ∈
              [(console_debug, VNumber LogLevel.DEBUG);
               (console_info, VNumber LogLevel.INFO);
               (console_warn, VNumber LogLevel.WARN);
               (console_error, VNumber LogLevel.ERROR)] -> s1 = s0).
  { intros s0 z0 s1. rewrite !elem_of_cons, !elem_of_nil.
    unfold LogLevel.DEBUG, LogLevel.INFO, LogLevel.WARN, LogLevel.ERROR.
    intros H1 H2. destruct_or!; simplify_eq; done. }
  destruct w as [hp c co lp fl pd un ob].
  destruct level as [| | b | [z| | |] | s | o];
    try (exists []; repeat split; try (by left); try done;
         try (by apply Hnone); try (apply Hnone; done);
         unfold ConsoleHandler.write, mbind, M_bind, emit, with_console_out; simpl;
         by rewrite <- ?app_assoc).
  unfold ConsoleHandler.write. simpl strict_equal.
  destruct (Z.eqb_spec z 10) as [-> | H10].
  { exists [(console_debug, message)]. simpl.
    unfold mbind, M_bind, emit, with_console_out. simpl. rewrite <- app_assoc.
    split; [done|]. split; [right; by eexists|]. split; [done|]. split; [done|].
    intros s0. apply Hone; [rewrite !elem_of_cons; tauto|].
    intros s1 Hs1. apply (Huniq _ 10); [rewrite !elem_of_cons; tauto|done]. }
  destruct (Z.eqb_spec z 20) as [-> | H20].
  { exists [(console_info, message)]. simpl.
    unfold mbind, M_bind, emit, with_console_out. simpl. rewrite <- app_assoc.
    split; [done|]. split; [right; by eexists|]. split; [done|]. split; [done|].
    intros s0. apply Hone; [rewrite !elem_of_cons; tauto|].
    intros s1 Hs1. apply (Huniq _ 20); [rewrite !elem_of_cons; tauto|done]. }
  destruct (Z.eqb_spec z 30) as [-> | H30].
  { exists [(console_warn, message)]. simpl.
    unfold mbind, M_bind, emit, with_console_out. simpl. rewrite <- app_assoc.
    split; [done|]. split; [right; by eexists|]. split; [done|]. split; [done|].
    intros s0. apply Hone; [rewrite !elem_of_cons; tauto|].
    intros s1 Hs1. apply (Huniq _ 30); [rewrite !elem_of_cons; tauto|done]. }
  destruct (Z.eqb_spec z 40) as [-> | H40].
  { exists [(console_error, message)]. simpl.
    unfold mbind, M_bind, emit, with_console_out. simpl. rewrite <- app_assoc.
    split; [done|]. split; [right; by eexists|]. split; [done|]. split; [done|].
    intros s0. apply Hone; [rewrite !elem_of_cons; tauto|].
    intros s1 Hs1. apply (Huniq _ 40); [rewrite !elem_of_cons; tauto|done]. }
  exists []. split; [done|]. split; [by left|]. split; [done|]. split; [done|].
  intros s0. apply Hnone. intros z0 Hz0 [= ->]. revert Hz0.
  rewrite !elem_of_cons, elem_of_nil. lia.
Qed.

Lemma ConsoleHandler_write_streams_witness :
  let w := World [] true [] "/game" ∅ [] [] [] in
  ConsoleHandler.write true "m" (VString "INFO") w =
    (Normal tt, with_console_out [(console_log, "m")] w) /\
  ConsoleHandler.write true "m" (VNumber LogLevel.ALL) w =
    (Normal tt, with_console_out [(console_log, "m")] w) /\
  ConsoleHandler.write true "m" (VNumber LogLevel.WARN) w =
    (Normal tt, with_console_out [(console_warn, "m"); (console_log, "m")] w) /\
  ConsoleHandler.write true "m" (VNumber LogLevel.DEBUG) w =
    (Normal tt, with_console_out [(console_debug, "m"); (console_log, "m")] w).
Proof.
  intros w.
  destruct (ConsoleHandler_write_streams "m" (VString "INFO") w)
    as (_ & r1 & H1 & _ & Hno1 & _).
  destruct (ConsoleHandler_write_streams "m" (VNumber LogLevel.ALL) w)
    as (_ & r2 & H2 & _ & _ & Hall2 & _).
  destruct (ConsoleHandler_write_streams "m" (VNumber LogLevel.WARN) w)
    as (_ & r3 & H3 & _ & _ & _ & Hiff3).
  destruct (ConsoleHandler_write_streams "m" (VNumber LogLevel.DEBUG) w)
    as (_ & r4 & H4 & _ & _ & _ & Hiff4).
  rewrite Hno1 in H1 by (simpl; discriminate).
  rewrite Hall2 in H2 by reflexivity.
  assert (E3 : r3 = [(console_warn, "m")])
    by (apply Hiff3; rewrite !elem_of_cons; tauto).
  assert (E4 : r4 = [(console_debug, "m")])
    by (apply Hiff4; rewrite !elem_of_cons; tauto).
  rewrite E3 in H3. rewrite E4 in H4.
  repeat split; assumption.
Defined.

(** ** Writes that may fail *)

(** One completion, whatever its outcome, keeps the account of the records:
    each is written ([done]), in flight ([bs]) or lost ([lost]); the file
    holds the old content followed by [done]; and every lost record has
    left one uncaught exception. *)
Lemma complete_account (logfile old : string) (others : gmap string string)
      (thrown0 : nat) (i : nat) (r : io_result) (w w1 : world)
      (done bs lost : list string) :
  Forall2 (carries logfile) (pending w) bs ->
  default EmptyString (files w !! logfile) = old +:+ join done ->
  (forall path, path <> logfile -> files w !! path = others !! path) ->
  length (uncaught w) = (thrown0 + length lost)%nat ->
  complete i r w = Some w1 ->
  exists done1 bs1 lost1,
    Forall2 (carries logfile) (pending w1) bs1 /\
    default EmptyString (files w1 !! logfile) = old +:+ join done1 /\
    (forall path, path <> logfile -> files w1 !! path = others !! path) /\
    length (uncaught w1) = (thrown0 + length lost1)%nat /\
    done1 ++ bs1 ++ lost1 ≡ₚ done ++ bs ++ lost /\
    done1 = done ++ step_written i r w.
Proof.
  intros Hall Hfile Hothers Hthrown. unfold complete, step_written.
  destruct (pending w !! i) as [t|] eqn:Et; [|discriminate].
  intros [= <-].
  destruct (Forall2_lookup_l _ _ _ _ _ Hall Et) as (b & Eb & Hcar).
  assert (Hperm : bs ≡ₚ b :: delete i bs) by by apply delete_Permutation.
  destruct r as [|code].
  - destruct Hcar as [-> | ->].
    + exists done, (delete i bs ++ [b]), lost. simpl. repeat split.
      * apply Forall2_app; [by apply Forall2_delete|].
        constructor; [by right|constructor].
      * by rewrite default_create.
      * intros path Hne. rewrite create_other by done. by apply Hothers.
      * done.
      * rewrite Hperm at 2. rewrite <- (app_assoc (delete i bs)). simpl.
        by rewrite <- Permutation_middle.
      * by rewrite app_nil_r.
    + exists (done ++ [b]), (delete i bs), lost. simpl. repeat split.
      * by apply Forall2_delete.
      * unfold append. rewrite lookup_insert_eq. simpl.
        rewrite Hfile, join_app, append_assoc. simpl.
        by rewrite append_empty_r.
      * intros path Hne. unfold append. rewrite lookup_insert_ne by done.
        by apply Hothers.
      * done.
      * rewrite Hperm at 2. by rewrite <- app_assoc.
  - exists done, (delete i bs), (b :: lost).
    destruct Hcar as [-> | ->]; simpl; repeat split;
      try (by apply Forall2_delete); try done;
      try (rewrite length_app, Hthrown; simpl; lia);
      try (by rewrite app_nil_r);
      rewrite Hperm at 2; simpl;
      by rewrite <- Permutation_middle.
Qed.

Lemma run_account (logfile old : string) (others : gmap string string)
      (thrown0 : nat) (schedule : list (nat * io_result)) :
  forall (w w1 : world) (done bs lost : list string),
    Forall2 (carries logfile) (pending w) bs ->
    default EmptyString (files w !! logfile) = old +:+ join done ->
    (forall path, path <> logfile -> files w !! path = others !! path) ->
    length (uncaught w) = (thrown0 + length lost)%nat ->
    run schedule w = Some w1 ->
    exists done1 bs1 lost1,
      Forall2 (carries logfile) (pending w1) bs1 /\
      default EmptyString (files w1 !! logfile) = old +:+ join done1 /\
      (forall path, path <> logfile -> files w1 !! path = others !! path) /\
      length (uncaught w1) = (thrown0 + length lost1)%nat /\
      done1 ++ bs1 ++ lost1 ≡ₚ done ++ bs ++ lost /\
      done1 = done ++ completed_writes schedule w.
Proof.
  induction schedule as [|[i r] schedule IH];
    intros w w1 done bs lost Hall Hfile Hothers Hthrown.
  - intros [= <-]. exists done, bs, lost. simpl. by rewrite app_nil_r.
  - simpl. destruct (complete i r w) as [w2|] eqn:E; [|discriminate].
    intros Hrun.
    destruct (complete_account _ _ _ _ _ _ _ _ _ _ _ Hall Hfile Hothers Hthrown E)
      as (done2 & bs2 & lost2 & Hall2 & Hfile2 & Hothers2 & Hthrown2 & Hperm2 & Hdone2).
    destruct (IH _ _ _ _ _ Hall2 Hfile2 Hothers2 Hthrown2 Hrun)
      as (done1 & bs1 & lost1 & Hall1 & Hfile1 & Hothers1 & Hthrown1 & Hperm1 & Hdone1).
    exists done1, bs1, lost1. repeat split; try done; [by rewrite Hperm1|].
    by rewrite Hdone1, Hdone2, <- app_assoc.
Qed.

(** Any number of writes on a ready handler of an idle world, completing
    in any order and with any outcomes: once nothing is pending, every
    message is either in the file, once, as its record, or lost with one
    exception thrown by a callback; the file holds its old content and
    then the records of the written messages whole, in the order in which
    the schedule completed their writes, and no other file has changed. *)
Theorem FileStreamHandler_records_written_or_lost
        (logfile : string) (ms : list string)
        (schedule : list (nat * io_result)) (w w1 : world) :
  pending w = [] ->
  run schedule
    (forEach ms (fun m => FileStreamHandler.write true logfile m VUndefined) w).2
    = Some w1 ->
  pending w1 = [] ->
  exists written lost,
    written ++ lost ≡ₚ ms /\
    map (fun m => m +:+ LF) written =
      completed_writes schedule
        (forEach ms (fun m => FileStreamHandler.write true logfile m VUndefined) w).2 /\
    default EmptyString (files w1 !! logfile) =
      default EmptyString (files w !! logfile)
        +:+ join (map (fun m => m +:+ LF) written) /\
    length (uncaught w1) = (length (uncaught w) + length lost)%nat /\
    (forall path, path <> logfile -> files w1 !! path = files w !! path).
Proof.
  intros Hidle Hrun Hend.
  rewrite forEach_write_queues, Hidle in Hrun. simpl in Hrun.
  assert (Hq : Forall2 (carries logfile)
                 (map (fun m => fs_open logfile (write_opened (m +:+ LF))) ms)
                 (map (fun m => m +:+ LF) ms)).
  { clear. induction ms as [|m ms IH]; constructor; [by left|done]. }
  assert (Hold : default EmptyString (files w !! logfile) =
                 default EmptyString (files w !! logfile) +:+ join []).
  { simpl. by rewrite append_empty_r. }
  destruct (run_account logfile _ (files w) (length (uncaught w)) schedule
              (with_pending
                 (map (fun m => fs_open logfile (write_opened (m +:+ LF))) ms) w)
              w1 [] _ [] Hq Hold)
    as (done1 & bs1 & lost1 & Hall & Hfile & Hothers & Hthrown & Hperm & Hdone);
    [done|simpl; lia|done|].
  rewrite Hend in Hall. apply Forall2_nil_inv_l in Hall as ->.
  simpl in Hperm, Hdone. rewrite app_nil_r in Hperm.
  apply Permutation_map_inv in Hperm as (order & Heq & Hperm).
  symmetry in Heq. apply fmap_app_inv in Heq as (written & lost & -> & -> & ->).
  exists written, lost. split; [done|].
  split; [rewrite forEach_write_queues, Hidle; exact Hdone|].
  split; [done|]. split; [|done].
  by rewrite length_map in Hthrown.
Qed.

Lemma FileStreamHandler_records_written_or_lost_witness :
  let w := World [FileStreamHandler_object true "/game/game.log"] true []
             "/game" ∅ [] [] [] in
  let schedule :=
    [(1%nat, io_ok); (0%nat, io_error "EMFILE"); (0%nat, io_ok)] in
  let w1 :=
    default w
      (run schedule
         (forEach ["a"; "b"]
            (fun m => FileStreamHandler.write true "/game/game.log" m VUndefined) w).2) in
  files w1 !! "/game/game.log" = Some ("b" +:+ LF) /\
  completed_writes schedule
    (forEach ["a"; "b"]
       (fun m => FileStreamHandler.write true "/game/game.log" m VUndefined) w).2
    = ["b" +:+ LF] /\
  exists written lost,
    written ++ lost ≡ₚ ["a"; "b"] /\
    map (fun m => m +:+ LF) written =
      completed_writes schedule
        (forEach ["a"; "b"]
           (fun m => FileStreamHandler.write true "/game/game.log" m VUndefined) w).2 /\
    default EmptyString (files w1 !! "/game/game.log") =
      default EmptyString (files w !! "/game/game.log")
        +:+ join (map (fun m => m +:+ LF) written) /\
    length (uncaught w1) = (length (uncaught w) + length lost)%nat /\
    (forall path, path <> "/game/game.log" -> files w1 !! path = files w !! path).
Proof.
  intros w schedule w1. split; [reflexivity|].
  split; [vm_compute; reflexivity|].
  apply (FileStreamHandler_records_written_or_lost "/game/game.log" ["a"; "b"]
           schedule w w1).
  - reflexivity.
  - vm_compute. reflexivity.
  - vm_compute. reflexivity.
Defined.

Lemma createLogger_flags (parameters : gmap string string) :
  logging_enable_console_logger parameters = true /\
  logging_enable_file_logger parameters = true.
Proof. split; apply enable_flag_true. Qed.

(** ** From createLogger to the file *)

Lemma forEach_cons {A : Type} (x : A) (l : list A) (f : A -> M unit) (w : world) :
  forEach (x :: l) f w =
  match f x w with
  | (Normal _, w1) => forEach l f w1
  | (Throw e, w1) => (Throw e, w1)
  end.
Proof. reflexivity. Qed.

Lemma handler_write_at (target : ref) (message : string) (lvl : value)
      (w : world) (obj : handler) :
  heap w !! target = Some obj ->
  handler_write target message lvl w =
  match obj with
  | LogHandler_object => LogHandler.write message
  | ConsoleHandler_object _ready => ConsoleHandler.write _ready message lvl
  | FileStreamHandler_object _ready _logfile =>
      FileStreamHandler.write _ready _logfile message lvl
  end (with_observed (observed w ++ [write_called target message lvl]) w).
Proof. intros H. unfold handler_write. by rewrite H. Qed.

(** [info] on a logger at the default threshold that holds a ready console
    handler and a file handler: one record is printed on [console.log], and
    one open is queued when the file handler is ready, none when it is
    not. *)
Lemma info_console_and_file (StringToNumber : string -> number) (h1 h2 : ref)
      (ready : bool) (_logfile message date : string) (w : world) :
  heap w !! h1 = Some (ConsoleHandler_object true) ->
  heap w !! h2 = Some (FileStreamHandler_object ready _logfile) ->
  Logger.info StringToNumber
    (Logger.Build [h1; h2] EmptyString (VNumber LogLevel.INFO)) message date w =
  (Normal tt,
   World (heap w) (console w)
     (console_out w ++ [(console_log, date +:+ " [INFO] - " +:+ message)])
     (logs_path w) (files w)
     (pending w ++
        (if ready
         then [fs_open _logfile
                 (write_opened ((date +:+ " [INFO] - " +:+ message) +:+ LF))]
         else []))
     (uncaught w)
     (observed w ++
        [format_returned (date +:+ " [INFO] - " +:+ message);
         write_called h1 (date +:+ " [INFO] - " +:+ message) VUndefined;
         write_called h2 (date +:+ " [INFO] - " +:+ message) VUndefined])).
Proof.
  intros H1 H2. unfold Logger.info, Logger.log.
  change (less_equal StringToNumber _ LogLevel.INFO) with true.
  change (_levelToName (VNumber LogLevel.INFO)) with (@Normal string "INFO").
  cbv iota. rewrite util_format_template.
  change (date +:+ " [" +:+ "INFO" +:+ "] - " +:+ message)
    with (date +:+ " [INFO] - " +:+ message).
  set (f := date +:+ " [INFO] - " +:+ message).
  unfold mbind at 1. unfold M_bind at 1. unfold observe at 1.
  cbn [Logger._handlers].
  destruct w as [hp c co lp fl pd un ob]. cbn in H1, H2.
  rewrite forEach_cons.
  erewrite handler_write_at by exact H1.
  unfold ConsoleHandler.write, mbind, M_bind, mret, M_ret, emit.
  cbn -[String.append handler_write]. unfold mbind, M_bind.
  erewrite handler_write_at by exact H2.
  destruct ready; unfold FileStreamHandler.write, enqueue, mret, M_ret;
    cbn -[String.append]; rewrite <- ?app_assoc, ?app_nil_r; reflexivity.
Qed.



Lemma createLogger_returns (parameters : gmap string string)
      (path_resolve : list string -> string) (path_basename : string -> string)
      (name : string) (level rv : value) (w : world) :
  _checkLevel level = Normal rv ->
  createLogger parameters path_resolve path_basename name level w =
    (Normal (Logger.Build [length (heap w); S (length (heap w))] EmptyString rv),
     with_pending
       (pending w ++
          [fs_open
             (path_resolve
                [logs_path w; "./"; path_basename (logging_filename parameters)])
             (initialize_opened (S (length (heap w))))])
       (with_heap
          (heap w ++
             [ConsoleHandler_object (console w);
              FileStreamHandler_object false
                (path_resolve
                   [logs_path w; "./";
                    path_basename (logging_filename parameters)])]) w)).
Proof.
  intros Hrv. destruct (createLogger_flags parameters) as [Hc Hf].
  unfold createLogger, Logger.setLevel. rewrite Hc, Hf, Hrv.
  destruct w as [hp c co lp fl pd un ob].
  unfold mbind, M_bind, mret, M_ret, ConsoleHandler.new, ConsoleHandler.initialize,
    FileStreamHandler.new, allocate, enqueue, Logger.addHandler, Logger.initialize.
  simpl. rewrite length_app, Nat.add_1_r, <- app_assoc. simpl.
  by destruct c.
Qed.

(** The logger [createLogger] returns, at work in a world with a console
    and nothing pending.  A record logged before the open of the file
    handler has completed is printed on the console and never reaches the
    file: when the open completes, nothing is left to run and the file is
    there without the record.  A record logged after that open has
    succeeded is printed as well, and once its open and its write have
    succeeded the file ends with the record and a line feed. *)
Theorem early_record_lost_late_record_written
        (parameters : gmap string string)
        (path_resolve : list string -> string) (path_basename : string -> string)
        (StringToNumber : string -> number) (message date : string) (w : world) :
  console w = true -> pending w = [] ->
  let logfile :=
    path_resolve [logs_path w; "./"; path_basename (logging_filename parameters)] in
  let formatted := date +:+ " [INFO] - " +:+ message in
  exists logger w1,
    createLogger parameters path_resolve path_basename "Game"
      (VNumber LogLevel.INFO) w = (Normal logger, w1) /\
    (exists w2 w3,
       Logger.info StringToNumber logger message date w1 = (Normal tt, w2) /\
       console_out w2 = console_out w ++ [(console_log, formatted)] /\
       complete 0 io_ok w2 = Some w3 /\
       pending w3 = [] /\
       files w3 !! logfile = Some (default EmptyString (files w !! logfile))) /\
    (exists w2 w3 w4,
       complete 0 io_ok w1 = Some w2 /\
       Logger.info StringToNumber logger message date w2 = (Normal tt, w3) /\
       console_out w3 = console_out w ++ [(console_log, formatted)] /\
       run [(0%nat, io_ok); (0%nat, io_ok)] w3 = Some w4 /\
       pending w4 = [] /\
       files w4 !! logfile =
         Some (default EmptyString (files w !! logfile) +:+ formatted +:+ LF)).
Proof.
  intros Hconsole Hidle logfile formatted.
  rewrite (createLogger_returns _ _ _ _ _ (VNumber LogLevel.INFO)) by reflexivity.
  destruct w as [hp c co lp fl pd un ob]. simpl in Hconsole, Hidle. subst c pd.
  cbn [logs_path heap pending console app] in *. fold logfile.
  unfold with_heap, with_pending.
  cbn [logs_path heap pending console app console_out files uncaught observed].
  do 2 eexists. split; [reflexivity|].
  set (n := length hp).
  assert (Hn : (hp ++ [ConsoleHandler_object true;
                       FileStreamHandler_object false logfile]) !! n
               = Some (ConsoleHandler_object true))
    by (by apply list_lookup_middle).
  assert (HSn : (hp ++ [ConsoleHandler_object true;
                        FileStreamHandler_object false logfile]) !! S n
                = Some (FileStreamHandler_object false logfile)).
  { rewrite (lookup_app_r hp) by (unfold n; lia).
    replace (S n - length hp)%nat with 1%nat by (unfold n; lia). reflexivity. }
  split.
  - erewrite info_console_and_file by (cbn [heap]; eassumption).
    do 2 eexists. split; [reflexivity|].
    cbn -[String.append]. split; [reflexivity|].
    unfold complete. cbn -[String.append]. split; [reflexivity|].
    cbn -[String.append]. split; [reflexivity|].
    unfold create. destruct (fl !! logfile) eqn:E; cbn; [by rewrite E|].
    by rewrite lookup_insert_eq.
  - unfold complete. cbn -[String.append Logger.info run].
    eexists. eexists. eexists. split; [reflexivity|].
    erewrite info_console_and_file with (ready := true).
    2: { cbn [heap with_heap]. rewrite list_lookup_alter_ne by lia. exact Hn. }
    2: { cbn [heap with_heap]. rewrite list_lookup_alter_eq, HSn. reflexivity. }
    split; [reflexivity|].
    cbn -[String.append]. split; [reflexivity|].
    unfold complete. cbn -[String.append]. split; [reflexivity|].
    cbn -[String.append]. split; [reflexivity|].
    unfold append. by rewrite lookup_insert_eq, !default_create.
Qed.

Lemma early_record_lost_late_record_written_witness :
  let w := World [] true [] "/game" ∅ [] [] [] in
  let path_resolve := fun parts : list string => String.concat "/" parts in
  let path_basename := fun name : string => name in
  let logfile :=
    path_resolve [logs_path w; "./"; path_basename (logging_filename ∅)] in
  let formatted := "T" +:+ " [INFO] - " +:+ "y" in
  logfile = "/game/.//game.log" /\
  exists logger w1,
    createLogger ∅ path_resolve path_basename "Game" (VNumber LogLevel.INFO) w
      = (Normal logger, w1) /\
    (exists w2 w3,
       Logger.info (fun _ => NaN) logger "y" "T" w1 = (Normal tt, w2) /\
       console_out w2 = console_out w ++ [(console_log, formatted)] /\
       complete 0 io_ok w2 = Some w3 /\
       pending w3 = [] /\
       files w3 !! logfile = Some (default EmptyString (files w !! logfile))) /\
    (exists w2 w3 w4,
       complete 0 io_ok w1 = Some w2 /\
       Logger.info (fun _ => NaN) logger "y" "T" w2 = (Normal tt, w3) /\
       console_out w3 = console_out w ++ [(console_log, formatted)] /\
       run [(0%nat, io_ok); (0%nat, io_ok)] w3 = Some w4 /\
       pending w4 = [] /\
       files w4 !! logfile =
         Some (default EmptyString (files w !! logfile) +:+ formatted +:+ LF)).
Proof.
  intros w path_resolve path_basename logfile formatted.
  split; [vm_compute; reflexivity|].
  exact (early_record_lost_late_record_written ∅ path_resolve path_basename
           (fun _ => NaN) "y" "T" w eq_refl eq_refl).
Defined.

(** ** resolveToLocalPath only deletes *)

Lemma chars_append (a b : string) : chars (a +:+ b) = chars a ++ chars b.
Proof.
  unfold chars. induction a as [|c a IH]; [reflexivity|].
  rewrite append_cons. simpl. by rewrite IH.
Qed.

(** What was read between an input and the suffix a match went on with. *)
Lemma consumed_append (pre s1 : string) : RegExp.consumed (pre +:+ s1) s1 = pre.
Proof.
  unfold RegExp.consumed. rewrite length_append.
  replace (String.length pre + String.length s1 - String.length s1)%nat
    with (String.length pre) by lia.
  induction pre as [|c pre IH].
  - change (EmptyString +:+ s1) with s1. by destruct s1.
  - rewrite append_cons. simpl. by rewrite IH.
Qed.

Lemma plus_greedy_suffix (member : ascii -> bool) (s : string)
      (k : string -> option RegExp.state) (x : RegExp.state) :
  RegExp.plus_greedy member s k = Some x ->
  exists pre s1, k s1 = Some x /\ s = pre +:+ s1.
Proof.
  induction s as [|c s IH]; simpl; [discriminate|].
  destruct (member c); [|discriminate].
  destruct (RegExp.plus_greedy member s k) as [r|] eqn:E.
  - intros [= ->]. destruct (IH eq_refl) as (pre & s1 & Hk & ->).
    exists (String c pre), s1. by rewrite append_cons.
  - intros Hk. by exists (String c EmptyString), s.
Qed.

Lemma plus_lazy_suffix (member : ascii -> bool) (s : string)
      (k : string -> option RegExp.state) (x : RegExp.state) :
  RegExp.plus_lazy member s k = Some x ->
  exists pre s1, k s1 = Some x /\ s = pre +:+ s1.
Proof.
  induction s as [|c s IH]; simpl; [discriminate|].
  destruct (member c); [|discriminate].
  destruct (k s) as [r|] eqn:E.
  - intros [= ->]. by exists (String c EmptyString), s.
  - intros H. destruct (IH H) as (pre & s1 & Hk & ->).
    exists (String c pre), s1. by rewrite append_cons.
Qed.

(** A successful match goes on with a suffix of its input, and the group it
    hands over is the one it was given or a piece of what it read. *)
Lemma matcher_suffix (r : RegExp.regex) :
  forall (s : string) (cap : option string) (k : RegExp.continuation)
         (x : RegExp.state),
    RegExp.matcher r s cap k = Some x ->
    exists pre s1 cap1,
      k s1 cap1 = Some x /\ s = pre +:+ s1 /\
      (cap1 = cap \/ exists c, cap1 = Some c /\ chars c `sublist_of` chars pre).
Proof.
  induction r as [member | r1 IH1 r2 IH2 | r1 IH1 | member | member | r1 IH1];
    intros s cap k x; simpl.
  - destruct s as [|c s]; [discriminate|].
    destruct (member c); [|discriminate].
    intros H. exists (String c EmptyString), s, cap. by eauto.
  - intros H. apply IH1 in H as (pre1 & s1 & cap1 & H & -> & Hcap1).
    apply IH2 in H as (pre2 & s2 & cap2 & H & -> & Hcap2).
    exists (pre1 +:+ pre2), s2, cap2. split; [done|].
    split; [by rewrite append_assoc|].
    rewrite chars_append.
    destruct Hcap2 as [-> | (c & -> & Hc)].
    + destruct Hcap1 as [-> | (c & -> & Hc)]; [by left|].
      right. exists c. split; [done|]. by apply sublist_inserts_r.
    + right. exists c. split; [done|]. by apply sublist_inserts_l.
  - destruct (RegExp.matcher r1 s cap _) as [y|] eqn:E.
    + intros [= ->]. apply IH1 in E as (pre & s1 & cap1 & H & -> & Hcap).
      destruct (String.length s1 =? String.length (pre +:+ s1))%nat; [discriminate|].
      by exists pre, s1, cap1.
    + intros H. exists EmptyString, s, cap. by eauto.
  - intros H. apply plus_greedy_suffix in H as (pre & s1 & H & ->).
    exists pre, s1, cap. by eauto.
  - intros H. apply plus_lazy_suffix in H as (pre & s1 & H & ->).
    exists pre, s1, cap. by eauto.
  - intros H. apply IH1 in H as (pre & s1 & cap1 & H & -> & _).
    rewrite consumed_append in H.
    exists pre, s1, (Some pre). split; [done|]. split; [done|].
    right. by exists pre.
Qed.

Lemma replace_group1_sublist (r : RegExp.regex) (fuel : nat) :
  forall s t : string,
    RegExp.replace_group1 fuel r s = Some t -> chars t `sublist_of` chars s.
Proof.
  induction fuel as [|fuel IH]; intros s t; [discriminate|].
  cbn [RegExp.replace_group1].
  destruct (RegExp.match_here r s) as [[rest cap]|] eqn:E.
  - apply matcher_suffix in E as (pre & s1 & cap1 & [= -> ->] & -> & Hcap).
    assert (Hsub : chars (default EmptyString cap) `sublist_of` chars pre).
    { destruct Hcap as [-> | (c & -> & Hc)]; [apply sublist_nil_l | done]. }
    destruct (String.length rest =? String.length (pre +:+ rest))%nat eqn:En.
    + apply Nat.eqb_eq in En. rewrite length_append in En.
      assert (pre = EmptyString) as -> by (destruct pre; [done|simpl in En; lia]).
      change (EmptyString +:+ rest) with rest.
      destruct rest as [|c s1].
      * intros [= <-]. done.
      * destruct (RegExp.replace_group1 fuel r s1) as [u|] eqn:Eu; [|discriminate].
        intros [= <-]. rewrite chars_append.
        apply sublist_nil_r in Hsub. rewrite Hsub. simpl.
        apply sublist_skip. by apply IH.
    + destruct (RegExp.replace_group1 fuel r rest) as [u|] eqn:Eu; [|discriminate].
      intros [= <-]. rewrite !chars_append.
      apply sublist_app; [done|]. by apply IH.
  - destruct s as [|c s1].
    + by intros [= <-].
    + destruct (RegExp.replace_group1 fuel r s1) as [u|] eqn:Eu; [|discriminate].
      intros [= <-]. simpl. apply sublist_skip. by apply IH.
Qed.

(** [resolveToLocalPath] returns a string for every input, and the string
    is what is left of the input after some of its characters were taken
    out: no character is added, changed or moved. *)
Theorem resolveToLocalPath_only_deletes (filePath : string) :
  exists t, resolveToLocalPath filePath = Some t /\
            chars t `sublist_of` chars filePath.
Proof.
  destruct (replace_group1_enough_fuel pattern (S (String.length filePath)) filePath)
    as [t Ht]; [lia|].
  exists t. split; [exact Ht|]. by apply replace_group1_sublist in Ht.
Qed.

(** ** A simple name *)

(** In front of a trailing separator the optional group finds no place to
    stop: the separator it could take is followed by nothing the group of
    the pattern could read. *)
Lemma greedy_trailing_separator (u : string) (c : ascii) (cap : option string)
      (k : RegExp.continuation) :
  all_chars plain u = true -> separator c = true ->
  (forall cap1, k EmptyString cap1 = None) ->
  RegExp.plus_greedy dot (u +:+ String c EmptyString)
    (fun s1 => RegExp.matcher (RegExp.PlusLazy separator) s1 cap k) = None.
Proof.
  intros Hu Hc Hk.
  assert (Hlast : RegExp.matcher (RegExp.PlusLazy separator)
                    (String c EmptyString) cap k = None).
  { rewrite matcher_PlusLazy. cbn [RegExp.plus_lazy]. by rewrite Hc, Hk. }
  induction u as [|a u IH].
  - change (EmptyString +:+ String c EmptyString) with (String c EmptyString).
    cbn [RegExp.plus_greedy]. by rewrite (separator_is_dot _ Hc).
  - simpl in Hu. apply andb_true_iff in Hu as [Ha Hu].
    apply plain_inv in Ha as [Hd _].
    rewrite append_cons. cbn [RegExp.plus_greedy]. rewrite Hd, (IH Hu).
    destruct u as [|b u].
    + exact Hlast.
    + simpl in Hu. apply andb_true_iff in Hu as [Hb _].
      apply plain_inv in Hb as [_ Hb].
      rewrite append_cons, matcher_PlusLazy. cbn [RegExp.plus_lazy]. by rewrite Hb.
Qed.

(** The match at the head of a name that ends in one separator: the first
    character, and the separator with it when the name is that character
    alone. *)
Lemma match_here_trailing_separator (a : ascii) (u : string) (c : ascii) :
  plain a = true -> all_chars plain u = true -> separator c = true ->
  RegExp.match_here pattern (String a (u +:+ String c EmptyString)) =
  Some (match u with
        | EmptyString => EmptyString
        | String _ _ => u +:+ String c EmptyString
        end, Some (String a EmptyString)).
Proof.
  intros Ha Hu Hc. destruct (plain_inv _ Ha) as [Hd Hs].
  unfold RegExp.match_here, pattern.
  rewrite matcher_Seq, matcher_Optional, matcher_Class, Hs.
  rewrite matcher_Seq, matcher_Optional, matcher_Seq, matcher_Plus.
  rewrite <- append_cons.
  rewrite greedy_trailing_separator;
    [|by simpl; rewrite Ha, Hu|done|intros cap1; by rewrite Nat.eqb_sym].
  rewrite append_cons.
  change (RegExp.plus_lazy dot (String a (u +:+ String c EmptyString))
            (fun s1 =>
               RegExp.matcher (RegExp.Optional (RegExp.Class separator)) s1
                 (Some (RegExp.consumed (String a (u +:+ String c EmptyString)) s1))
                 (fun s2 cap2 => Some (s2, cap2))) = 
          Some (match u with
                | EmptyString => EmptyString
                | String _ _ => u +:+ String c EmptyString
                end, Some (String a EmptyString))).
  cbn [RegExp.plus_lazy]. rewrite Hd, consumed_one.
  destruct u as [|b u].
  - change (EmptyString +:+ String c EmptyString) with (String c EmptyString).
    rewrite matcher_Optional, matcher_Class, Hc. reflexivity.
  - simpl in Hu. apply andb_true_iff in Hu as [Hb _].
    apply plain_inv in Hb as [_ Hb].
    rewrite append_cons, matcher_Optional, matcher_Class, Hb. reflexivity.
Qed.

Lemma replace_group1_trailing_separator (u : string) (c : ascii) :
  all_chars plain u = true -> u <> EmptyString -> separator c = true ->
  forall fuel, (String.length u < fuel)%nat ->
    RegExp.replace_group1 fuel pattern (u +:+ String c EmptyString) = Some u.
Proof.
  intros Hu Hne Hc. induction u as [|a u IH]; [done|].
  intros [|fuel] Hlen; [lia|].
  simpl in Hu. apply andb_true_iff in Hu as [Ha Hu].
  rewrite append_cons. cbn [RegExp.replace_group1].
  rewrite (match_here_trailing_separator a u c Ha Hu Hc).
  destruct u as [|b u].
  - destruct fuel as [|fuel]; [simpl in Hlen; lia|]. reflexivity.
  - replace (String.length (String b u +:+ String c EmptyString) =?
             String.length (String a (String b u +:+ String c EmptyString)))%nat
      with false by (symmetry; apply Nat.eqb_neq; simpl; lia).
    rewrite IH; [reflexivity|done|done|simpl in *; lia].
Qed.

(** A name without separators and line terminators comes out as it is, and
    so it does when one separator follows it: a configured directory such
    as [logs] or [logs/] is read as [logs]. *)
Theorem resolveToLocalPath_simple_name (name : string) :
  all_chars plain name = true ->
  resolveToLocalPath name = Some name /\
  (name <> EmptyString ->
   forall c, separator c = true ->
     resolveToLocalPath (name +:+ String c EmptyString) = Some name).
Proof.
  intros Hname. split.
  - apply replace_group1_plain; [done|lia].
  - intros Hne c Hc. apply replace_group1_trailing_separator; try done.
    rewrite length_append. simpl. lia.
Qed.

Lemma resolveToLocalPath_simple_name_witness :
  resolveToLocalPath "logs" = Some "logs" /\
  resolveToLocalPath "logs/" = Some "logs".
Proof.
  destruct (resolveToLocalPath_simple_name "logs" eq_refl) as [H1 H2].
  split; [exact H1|].
  exact (H2 ltac:(discriminate) "/"%char eq_refl).
Defined.

(** ** The game directory *)

Lemma capital_not_slash (x : ascii) : capital x = true -> slash x = false.
Proof.
  intros Hx. unfold slash. destruct (Ascii.eqb_spec x "/") as [-> | _]; [|done].
  discriminate.
Qed.

(** What the pattern of [getGameDirectory] finds at the head of a string. *)
Lemma drive_pattern_match (dir : string) :
  RegExp.match_here drive_pattern dir =
  match dir with
  | String s (String x (String c rest)) =>
      if slash s && capital x && colon c
      then Some (rest, Some (String x (String c EmptyString)))
      else None
  | _ => None
  end.
Proof.
  unfold RegExp.match_here, drive_pattern.
  destruct dir as [|s [|x [|c rest]]]; cbn [RegExp.matcher].
  - reflexivity.
  - by destruct (slash s).
  - by destruct (slash s), (capital x).
  - destruct (slash s), (capital x), (colon c); try reflexivity.
    cbn [andb].
    change (String x (String c rest))
      with (String x (String c EmptyString) +:+ rest).
    by rewrite consumed_append.
Qed.

(** [getGameDirectory] returns the directory of the page; when that text
    starts with a slash, a capital letter and a colon, it returns the text
    without the slash, and what it returns never starts that way. *)
Theorem getGameDirectory_strips_drive_slash
        (path_dirname : string -> string) (window_location_pathname : string) :
  let dir := path_dirname window_location_pathname in
  getGameDirectory path_dirname window_location_pathname =
    match dir with
    | String s (String x (String c rest)) =>
        if slash s && capital x && colon c then String x (String c rest) else dir
    | _ => dir
    end /\
  RegExp.match_here drive_pattern
    (getGameDirectory path_dirname window_location_pathname) = None.
Proof.
  intros dir. unfold getGameDirectory. fold dir.
  rewrite (drive_pattern_match dir).
  destruct dir as [|s [|x [|c rest]]] eqn:E; try (split; reflexivity).
  - split; [reflexivity|]. by rewrite drive_pattern_match.
  - split; [reflexivity|]. by rewrite drive_pattern_match.
  - destruct (slash s && capital x && colon c) eqn:Eb.
    + split; [reflexivity|]. cbn [slice1].
      apply andb_true_iff in Eb as [Eb _]. apply andb_true_iff in Eb as [_ Hx].
      rewrite drive_pattern_match.
      destruct rest as [|y rest]; [reflexivity|].
      by rewrite (capital_not_slash _ Hx).
    + split; [reflexivity|]. by rewrite drive_pattern_match, Eb.
Qed.

(** ** The plugin parameters *)

Lemma parameter_or_default (parameters : gmap string string) (key fallback : string) :
  Object_prototype !! key = None ->
  ToString (or_else (parameter parameters key) (VString fallback)) =
  if decide (default EmptyString (parameters !! key) = EmptyString) then fallback
  else default EmptyString (parameters !! key).
Proof.
  intros Hkey. unfold parameter, get, or_else. rewrite lookup_fmap, Hkey.
  destruct (parameters !! key) as [s|]; cbn [fmap option_fmap option_map default].
  - cbn [ToBoolean]. destruct (String.eqb_spec s EmptyString) as [-> | Hne].
    + reflexivity.
    + cbn [negb ToString]. unfold id. by destruct (decide (s = EmptyString)).
  - reflexivity.
Qed.

(** What the plugin reads from its parameters.  A parameter that is absent
    counts as empty.  The directory is the text typed in, so without one
    the logs go to the game directory; an empty file name stands for
    "game.log" and an empty level for "INFO"; any other text is taken as it
    is, unchecked. *)
Theorem plugin_parameters_defaults (parameters : gmap string string) :
  let typed := fun key : string => default EmptyString (parameters !! key) in
  logging_directory parameters = typed "Log Directory" /\
  logging_filename parameters =
    (if decide (typed "Log Filename" = EmptyString) then "game.log"
     else typed "Log Filename") /\
  logging_log_level parameters =
    (if decide (typed "Log Level" = EmptyString) then "INFO"
     else typed "Log Level").
Proof.
  intros typed. unfold logging_directory, logging_filename, logging_log_level.
  rewrite !parameter_or_default by (vm_compute; reflexivity).
  fold (typed "Log Directory") (typed "Log Filename") (typed "Log Level").
  split; [|done].
  by destruct (decide (typed "Log Directory" = EmptyString)) as [-> | ?].
Qed.

(** ** Start-up *)

Lemma checkLevel_outside_table (name : string) :
  name ∉ level_names ->
  _checkLevel (_nameToLevel (VString name)) =
  Throw (Error "Level " (_nameToLevel (VString name)) " unrecognized.").
Proof.
  intros H. rewrite (nameToLevel_outside_table _ H).
  destruct (Object_prototype !! name) as [v|] eqn:E; simpl; [|reflexivity].
  apply Object_prototype_objects in E as [o ->]. by destruct o.
Qed.

Lemma checkLevel_in_table (name : string) :
  name ∈ level_names ->
  exists rank,
    _nameToLevel (VString name) = VNumber (Finite rank) /\
    _checkLevel (_nameToLevel (VString name)) = Normal (VNumber (Finite rank)) /\
    rank ∈ level_ranks.
Proof.
  unfold level_names, level_ranks. intros Hin.
  repeat (apply elem_of_cons in Hin as [-> | Hin];
          [eexists; split; [reflexivity|]; split; [reflexivity|];
           rewrite !elem_of_cons; tauto |]).
  by apply elem_of_nil in Hin.
Qed.

Lemma createLogger_throws (parameters : gmap string string)
      (path_resolve : list string -> string) (path_basename : string -> string)
      (name : string) (level : value) (e : thrown) (w : world) :
  _checkLevel level = Throw e ->
  createLogger parameters path_resolve path_basename name level w = (Throw e, w).
Proof.
  intros He. unfold createLogger, Logger.setLevel. by rewrite He.
Qed.

(** How the start-up ends can be read off [Logging.PluginState].  When the
    game directory does not resolve, [initialize] throws in the state
    "initializing" and nothing else happens.  When it resolves and the
    configured level is one of the six names, the callback of [fs.access]
    sets the logger and the state "done".  When the configured level is any
    other text, [createLogger] throws out of the callback: the state stays
    "resolving_logs_path", no logger is set and no handler is made.  The
    state "err" is never entered. *)
Theorem startup_state_tells_outcome
        (parameters : gmap string string)
        (path_resolve : list string -> string)
        (path_basename path_dirname : string -> string)
        (realpathSync : string -> completion string)
        (window_location_pathname : string) (err : io_result) (w : world) :
  let started :=
    initialize parameters path_resolve path_dirname realpathSync
      window_location_pathname (loaded w) in
  let p := access_completed parameters path_resolve path_basename err started.2 in
  let level := _nameToLevel (VString (logging_log_level parameters)) in
  match realpathSync (getGameDirectory path_dirname window_location_pathname) with
  | Throw e =>
      started.1 = Throw e /\
      Logging.PluginState (globals p) = Some Logging.STATE_INITIALIZING /\
      Logging.logger (globals p) = None /\
      the_world p = w /\ mkdir_requested p = []
  | Normal root =>
      started.1 = Normal tt /\
      if decide (logging_log_level parameters ∈ level_names) then
        Logging.PluginState (globals p) = Some Logging.STATE_DONE /\
        is_Some (Logging.logger (globals p)) /\
        uncaught (the_world p) = uncaught w
      else
        Logging.PluginState (globals p) = Some Logging.STATE_RESOLVING_LOGS_PATH /\
        Logging.logger (globals p) = None /\
        uncaught (the_world p) =
          uncaught w ++ [Error "Level " level " unrecognized."] /\
        heap (the_world p) = heap w /\ pending (the_world p) = pending w
  end.
Proof.
  intros started p level. subst started p. unfold initialize.
  destruct (realpathSync _) as [root|e].
  - split; [reflexivity|].
    unfold access_completed.
    cbn [snd access_pending globals the_world mkdir_requested Logging.Level
         Logging.with_PluginState Logging.with_root_path Logging.with_Format
         Logging.with_Level loaded].
    fold level.
    destruct (decide (logging_log_level parameters ∈ level_names)) as [Hin | Hout].
    + destruct (checkLevel_in_table _ Hin) as (rank & _ & Hrv & _).
      fold level in Hrv.
      erewrite createLogger_returns by exact Hrv.
      destruct (ToBoolean _); cbn; eauto.
    + pose proof (checkLevel_outside_table _ Hout) as He. fold level in He.
      erewrite createLogger_throws by exact He.
      destruct (ToBoolean _); cbn; eauto.
  - cbn. eauto.
Qed.

(** When the game directory resolves and the configured level is a name of
    the table, the start-up leaves a logger at the rank of that name with a
    console handler and a file handler that is not ready yet.  The logs go
    to the game directory, or, when a directory is configured, to what
    [resolveToLocalPath] leaves of it, resolved against the game directory;
    the log file is the base name of the configured file name in there.
    [fs.mkdir] is asked for that directory when [fs.access] reported an
    error, and only then. *)
Theorem startup_logger_and_paths
        (parameters : gmap string string)
        (path_resolve : list string -> string)
        (path_basename path_dirname : string -> string)
        (realpathSync : string -> completion string)
        (window_location_pathname root : string) (err : io_result) (w : world) :
  realpathSync (getGameDirectory path_dirname window_location_pathname)
    = Normal root ->
  logging_log_level parameters ∈ level_names ->
  let p :=
    access_completed parameters path_resolve path_basename err
      (initialize parameters path_resolve path_dirname realpathSync
         window_location_pathname (loaded w)).2 in
  let directory := logging_directory parameters in
  exists rank local,
    _nameToLevel (VString (logging_log_level parameters)) = VNumber (Finite rank) /\
    resolveToLocalPath directory = Some local /\
    let logs :=
      if decide (directory = EmptyString) then root
      else path_resolve [root; "./"; local] in
    let logfile :=
      path_resolve [logs; "./"; path_basename (logging_filename parameters)] in
    let h := length (heap w) in
    Logging.root_path (globals p) = Some root /\
    logs_path (the_world p) = logs /\
    mkdir_requested p =
      match err with io_ok => [] | io_error _ => [logs] end /\
    Logging.logger (globals p) =
      Some (Logger.Build [h; S h] EmptyString (VNumber (Finite rank))) /\
    heap (the_world p) =
      heap w ++ [ConsoleHandler_object (console w);
                 FileStreamHandler_object false logfile] /\
    pending (the_world p) = pending w ++ [fs_open logfile (initialize_opened (S h))] /\
    files (the_world p) = files w.
Proof.
  intros Hreal Hin p directory. subst p.
  destruct (checkLevel_in_table _ Hin) as (rank & Hlevel & Hrv & _).
  destruct (replace_group1_enough_fuel pattern (S (String.length directory))
              directory) as [local Hlocal]; [lia|].
  exists rank, local. split; [exact Hlevel|]. split; [exact Hlocal|].
  unfold initialize. rewrite Hreal. unfold access_completed.
  cbn [snd access_pending globals the_world mkdir_requested Logging.Level
       Logging.with_PluginState Logging.with_root_path Logging.with_Format
       Logging.with_Level loaded].
  erewrite createLogger_returns by exact Hrv.
  fold directory. unfold resolveToLocalPath, RegExp.replace. rewrite Hlocal.
  cbn [ToBoolean default].
  destruct (decide (directory = EmptyString)) as [-> | Hne].
  - cbn. by destruct err.
  - apply String.eqb_neq in Hne. rewrite Hne. cbn. by destruct err.
Qed.

Lemma startup_logger_and_paths_witness :
  let parameters : gmap string string :=
    {[ "Log Level" := "WARN"; "Log Directory" := "../logs/" ]} in
  let path_resolve := fun parts : list string => String.concat "/" parts in
  let path_basename := fun name : string => name in
  let path_dirname := fun name : string => "/C:/game" in
  let realpathSync := fun name : string => Normal name in
  let w := World [] true [] EmptyString ∅ [] [] [] in
  let p :=
    access_completed parameters path_resolve path_basename (io_error "ENOENT")
      (initialize parameters path_resolve path_dirname realpathSync
         "/C:/game/index.html" (loaded w)).2 in
  logs_path (the_world p) = "C:/game/.//logs" /\
  Logging.PluginState (globals p) = Some "done" /\
  let directory := logging_directory parameters in
  exists rank local,
    _nameToLevel (VString (logging_log_level parameters)) = VNumber (Finite rank) /\
    resolveToLocalPath directory = Some local /\
    let logs :=
      if decide (directory = EmptyString) then "C:/game"
      else path_resolve ["C:/game"; "./"; local] in
    let logfile :=
      path_resolve [logs; "./"; path_basename (logging_filename parameters)] in
    let h := length (heap w) in
    Logging.root_path (globals p) = Some "C:/game" /\
    logs_path (the_world p) = logs /\
    mkdir_requested p =
      match io_error "ENOENT" with io_ok => [] | io_error _ => [logs] end /\
    Logging.logger (globals p) =
      Some (Logger.Build [h; S h] EmptyString (VNumber (Finite rank))) /\
    heap (the_world p) =
      heap w ++ [ConsoleHandler_object (console w);
                 FileStreamHandler_object false logfile] /\
    pending (the_world p) = pending w ++ [fs_open logfile (initialize_opened (S h))] /\
    files (the_world p) = files w.
Proof.
  intros parameters path_resolve path_basename path_dirname realpathSync w p.
  split; [vm_compute; reflexivity|]. split; [vm_compute; reflexivity|].
  assert (Hlevel : logging_log_level parameters = "WARN") by (vm_compute; reflexivity).
  refine (startup_logger_and_paths parameters path_resolve path_basename
            path_dirname realpathSync "/C:/game/index.html" "C:/game"
            (io_error "ENOENT") w eq_refl _).
  rewrite Hlevel. unfold level_names. rewrite !elem_of_cons. tauto.
Defined.
